(** * The [Home] page component of the multi-provider query front end

    A shallow embedding of [src/app/page.tsx] (the version with per-provider
    requests and location enrichment): the React state of the component, its
    event handlers and the asynchronous continuations they leave behind,
    together with the ECMAScript built-ins the handlers call.

    Conventions.
    - A JavaScript string is a [string]: a sequence of code units, each an
      [ascii] holding a code unit in the range 0..255 (Basic Latin and
      Latin-1 Supplement).  [trim], [toLowerCase] and [includes] follow
      ECMA-262 exactly on that range.
    - A JavaScript number that the program can hold (a clock reading, a
      coordinate delivered by the geolocation service, a number parsed from
      JSON) is finite; it is kept as a binary fraction [mant * 2 ^ expo].
    - [useState] cells become the fields of [HomeState]; a handler is a
      function on the state, and what a handler leaves on the event loop
      (a [fetch] whose continuation has not run yet) is kept next to the
      state in [World]. *)

From Stdlib Require Import ZArith Ascii String List Bool Lia.
From stdpp Require Import base list.

Local Open Scope string_scope.
Local Open Scope Z_scope.

(** ** Strings *)

Module JsString.

(** WhiteSpace and LineTerminator code units below 256: TAB, LF, VT, FF,
    CR, SP and NBSP. *)
Definition isWhiteSpace (c : ascii) : bool :=
  match N_of_ascii c with
  | 9%N | 10%N | 11%N | 12%N | 13%N | 32%N | 160%N => true
  | _ => false
  end.

Fixpoint trimStart (s : string) : string :=
  match s with
  | EmptyString => EmptyString
  | String c s' => if isWhiteSpace c then trimStart s' else s
  end.

Fixpoint trimEnd (s : string) : string :=
  match s with
  | EmptyString => EmptyString
  | String c s' =>
      match trimEnd s' with
      | EmptyString => if isWhiteSpace c then EmptyString else String c EmptyString
      | t => String c t
      end
  end.

(** [String.prototype.trim] *)
Definition trim (s : string) : string := trimEnd (trimStart s).

(** A string used as a condition: the empty string is falsy. *)
Definition truthy (s : string) : bool :=
  match s with EmptyString => false | String _ _ => true end.

(** Lower-casing of one code unit: A..Z, and the Latin-1 capitals
    U+00C0..U+00DE except the multiplication sign U+00D7. *)
Definition toLowerUnit (c : ascii) : ascii :=
  let n := N_of_ascii c in
  if ((65 <=? n) && (n <=? 90) ||
      (192 <=? n) && (n <=? 222) && negb (n =? 215))%N
  then ascii_of_N (n + 32) else c.

(** [String.prototype.toLowerCase] *)
Fixpoint toLowerCase (s : string) : string :=
  match s with
  | EmptyString => EmptyString
  | String c s' => String (toLowerUnit c) (toLowerCase s')
  end.

(** [String.prototype.includes] *)
Fixpoint includes (s k : string) : bool :=
  if String.prefix k s then true
  else match s with
       | EmptyString => false
       | String _ s' => includes s' k
       end.

(** [Array.prototype.some] and [Array.prototype.every] *)
Definition some {A} (p : A -> bool) (l : list A) : bool := existsb p l.
Definition every {A} (p : A -> bool) (l : list A) : bool := forallb p l.

(** Every code unit of the string is white space. *)
Fixpoint allWhiteSpace (s : string) : bool :=
  match s with
  | EmptyString => true
  | String c s' => isWhiteSpace c && allWhiteSpace s'
  end.

End JsString.

(** ** Numbers *)

Module JsNumber.

(** The finite number [mant * 2 ^ expo]. *)
Record number : Type := Number { mant : Z; expo : Z }.

Definition ofZ (n : Z) : number := Number n 0.

Definition abs (x : number) : number := Number (Z.abs (mant x)) (expo x).

Definition isNegative (x : number) : bool := mant x <? 0.

(** [10 ^ 21 <= |x|] *)
Definition atLeast1e21 (x : number) : bool :=
  let a := Z.abs (mant x) in
  if 0 <=? expo x then 10 ^ 21 <=? a * 2 ^ expo x
  else 10 ^ 21 * 2 ^ (- expo x) <=? a.

(** The integer [n] for which [n / 10 ^ f - |x|] is as close to zero as
    possible, the larger one when there are two. *)
Definition nearest (f : nat) (x : number) : Z :=
  let a := Z.abs (mant x) in
  if 0 <=? expo x then a * 2 ^ expo x * 10 ^ Z.of_nat f
  else let d := 2 ^ (- expo x) in (2 * (a * 10 ^ Z.of_nat f) + d) / (2 * d).

Definition digit (d : Z) : ascii := ascii_of_N (48 + Z.to_N d).

Fixpoint digitsFuel (fuel : nat) (n : Z) : string :=
  match fuel with
  | O => EmptyString
  | S fuel' =>
      if n <? 10 then String (digit n) EmptyString
      else digitsFuel fuel' (n / 10) ++ String (digit (n mod 10)) EmptyString
  end.

(** The digits of the decimal representation of [n >= 0]; ["0"] for 0. *)
Definition digits (n : Z) : string :=
  digitsFuel (S (Z.to_nat (Z.log2 n))) n.

Fixpoint zeros (k : nat) : string :=
  match k with
  | O => EmptyString
  | S k' => String "0" (zeros k')
  end.

(** What the host provides and this program only calls:
    [Number::toString], which [toFixed] falls back on from [10 ^ 21]
    upwards. *)
Class Host : Type := { Number_toString : number -> string }.

(** [Number.prototype.toFixed] on a finite number (ECMA-262 21.1.3.3,
    steps 7 to 12). *)
Definition toFixed `{Host} (f : nat) (x : number) : string :=
  let s := if isNegative x then "-" else "" in
  let m :=
    if atLeast1e21 x then Number_toString (abs x)
    else
      let m := digits (nearest f x) in
      match f with
      | O => m
      | S _ =>
          let k := String.length m in
          let m := if (k <=? f)%nat then zeros (f + 1 - k) ++ m else m in
          let k := if (k <=? f)%nat then (f + 1)%nat else k in
          substring 0 (k - f) m ++ "." ++ substring (k - f) f m
      end
  in s ++ m.

End JsNumber.

Import JsString JsNumber.


(** ** The data of the page *)

Record LLMResponse : Type := {
  model : string;
  response : string;
  error : option string;
  timestamp : number;
  loading : option bool
}.

Record QueryResult : Type := {
  query : string;
  responses : list LLMResponse;
  analysis : option string
}.

Record Location : Type := {
  city : option string;
  country : option string;
  latitude : number;
  longitude : number
}.

(** The address part of a reverse-geocoding answer, as far as the page
    reads it. *)
Record Address : Type := {
  addr_city : option string;
  addr_town : option string;
  addr_village : option string;
  addr_country : option string
}.

(** An optional string used as a condition: [undefined] and the empty
    string are falsy. *)
Definition present (o : option string) : bool :=
  match o with
  | Some s => truthy s
  | None => false
  end.

(** [a || b] on optional strings *)
Definition orElse (a b : option string) : option string :=
  if present a then a else b.

(** [r.loading] used as a condition *)
Definition isLoading (r : LLMResponse) : bool :=
  match loading r with
  | Some b => b
  | None => false
  end.

(** [{ ...data, loading: false }] *)
Definition loaded (data : LLMResponse) : LLMResponse :=
  {| model := model data; response := response data; error := error data;
     timestamp := timestamp data; loading := Some false |}.

(** [{ ...slot, loading: false, error: "Failed to fetch response" }] *)
Definition failed (slot : LLMResponse) : LLMResponse :=
  {| model := model slot; response := response slot;
     error := Some "Failed to fetch response";
     timestamp := timestamp slot; loading := Some false |}.

(** [a[i] = v] for an index inside the array.  Past the end JavaScript
    grows the array and leaves holes, which a list of responses does not
    have: there the model stops ([None]).  No continuation of the page gets
    there, see [settle_progress]. *)
Definition assign {A : Type} (i : nat) (v : A) (l : list A) : option (list A) :=
  if (i <? length l)%nat then Some (<[ i := v ]> l) else None.

(** The cells of [useState]. *)
Record HomeState : Type := {
  st_query : string;
  st_loading : bool;
  st_analyzing : bool;
  st_results : option QueryResult;
  st_history : list string;
  st_sidebarOpen : bool;
  st_location : option Location;
  st_locationPermission : string
}.

Definition setQuery (v : string) (s : HomeState) : HomeState :=
  {| st_query := v; st_loading := st_loading s; st_analyzing := st_analyzing s;
     st_results := st_results s; st_history := st_history s;
     st_sidebarOpen := st_sidebarOpen s; st_location := st_location s;
     st_locationPermission := st_locationPermission s |}.

Definition setLoading (v : bool) (s : HomeState) : HomeState :=
  {| st_query := st_query s; st_loading := v; st_analyzing := st_analyzing s;
     st_results := st_results s; st_history := st_history s;
     st_sidebarOpen := st_sidebarOpen s; st_location := st_location s;
     st_locationPermission := st_locationPermission s |}.

Definition setAnalyzing (v : bool) (s : HomeState) : HomeState :=
  {| st_query := st_query s; st_loading := st_loading s; st_analyzing := v;
     st_results := st_results s; st_history := st_history s;
     st_sidebarOpen := st_sidebarOpen s; st_location := st_location s;
     st_locationPermission := st_locationPermission s |}.

(** [setResults(f)] with an updater [f] of the previous value. *)
Definition setResults (f : option QueryResult -> option QueryResult)
    (s : HomeState) : HomeState :=
  {| st_query := st_query s; st_loading := st_loading s;
     st_analyzing := st_analyzing s;
     st_results := f (st_results s); st_history := st_history s;
     st_sidebarOpen := st_sidebarOpen s; st_location := st_location s;
     st_locationPermission := st_locationPermission s |}.

Definition setHistory (f : list string -> list string) (s : HomeState) : HomeState :=
  {| st_query := st_query s; st_loading := st_loading s;
     st_analyzing := st_analyzing s;
     st_results := st_results s; st_history := f (st_history s);
     st_sidebarOpen := st_sidebarOpen s; st_location := st_location s;
     st_locationPermission := st_locationPermission s |}.

Definition setSidebarOpen (v : bool) (s : HomeState) : HomeState :=
  {| st_query := st_query s; st_loading := st_loading s;
     st_analyzing := st_analyzing s;
     st_results := st_results s; st_history := st_history s;
     st_sidebarOpen := v; st_location := st_location s;
     st_locationPermission := st_locationPermission s |}.

Definition setLocation (v : option Location) (s : HomeState) : HomeState :=
  {| st_query := st_query s; st_loading := st_loading s;
     st_analyzing := st_analyzing s;
     st_results := st_results s; st_history := st_history s;
     st_sidebarOpen := st_sidebarOpen s; st_location := v;
     st_locationPermission := st_locationPermission s |}.

Definition setLocationPermission (v : string) (s : HomeState) : HomeState :=
  {| st_query := st_query s; st_loading := st_loading s;
     st_analyzing := st_analyzing s;
     st_results := st_results s; st_history := st_history s;
     st_sidebarOpen := st_sidebarOpen s; st_location := st_location s;
     st_locationPermission := v |}.

(** ** Location enrichment *)

Definition locationKeywords : list string :=
  ["weather"; "temperature"; "forecast"; "near me"; "nearby"; "local";
   "around here"].

Definition shouldAddLocation (query : string) : bool :=
  some (fun keyword => includes (toLowerCase query) keyword) locationKeywords.

Definition locationString `{Host} (location : Location) : string :=
  if present (city location) && present (country location)
  then "in " ++ default "" (city location) ++ ", "
         ++ default "" (country location)
  else "at coordinates " ++ toFixed 2 (latitude location) ++ ", "
         ++ toFixed 2 (longitude location).

Definition enhanceQueryWithLocation `{Host} (location : option Location)
    (query : string) : string :=
  match location with
  | None => query
  | Some loc =>
      if negb (shouldAddLocation query) then query
      else query ++ " " ++ locationString loc
  end.

(** ** Requests on the event loop *)

(** A provider request started by [handleSubmit] whose continuation has not
    run yet, with what the continuation has captured.  [submission] numbers
    the call of [handleSubmit] that started it; the program itself keeps no
    such number. *)
Record Request : Type := {
  submission : nat;
  endpoint : string;
  index : nat;
  body : string
}.

(** The body of an analysis request. *)
Record AnalyzeRequest : Type := {
  areq_query : string;
  areq_responses : list LLMResponse
}.

(** The page and its surroundings: the state, the requests in flight and
    whether [requestLocation] is still running.  The last three fields are
    history variables, written only to state properties of runs: the number
    of accepted submissions, their query strings (latest first) and the
    continuations of provider requests that have run. *)
Record World : Type := {
  ui : HomeState;
  fetches : list Request;
  analyses : list AnalyzeRequest;
  locating : bool;
  submissions : nat;
  submitted : list string;
  settled : list (nat * nat)
}.

Definition withUi (f : HomeState -> HomeState) (w : World) : World :=
  {| ui := f (ui w); fetches := fetches w; analyses := analyses w;
     locating := locating w; submissions := submissions w;
     submitted := submitted w; settled := settled w |}.

Definition initialState : HomeState :=
  {| st_query := ""; st_loading := false; st_analyzing := false;
     st_results := None; st_history := []; st_sidebarOpen := true;
     st_location := None; st_locationPermission := "prompt" |}.

(** The page after mounting: [useEffect] has called [requestLocation]. *)
Definition initialWorld : World :=
  {| ui := initialState; fetches := []; analyses := []; locating := true;
     submissions := 0; submitted := []; settled := [] |}.

(** ** [requestLocation] *)

Inductive Geolocation : Type :=
| GeoUnsupported
| GeoDenied
| GeoPosition (lat lon : number) (geocoded : option (option Address)).

Definition requestLocation (g : Geolocation) (s : HomeState) : HomeState :=
  match g with
  | GeoUnsupported => s
  | GeoDenied => setLocationPermission "denied" s
  | GeoPosition lat lon (Some address) =>
      setLocationPermission "granted"
        (setLocation
           (Some {| city := orElse (orElse (address ≫= addr_city)
                                            (address ≫= addr_town))
                                   (address ≫= addr_village);
                    country := address ≫= addr_country;
                    latitude := lat; longitude := lon |}) s)
  | GeoPosition lat lon None =>
      setLocationPermission "granted"
        (setLocation
           (Some {| city := None; country := None;
                    latitude := lat; longitude := lon |}) s)
  end.

(** ** [handleSubmit] *)

Definition initialResponses (t0 t1 t2 t3 : number) : list LLMResponse :=
  [ {| model := "GPT-5.2 Thinking (OpenAI) - Dec 2025"; response := "";
       error := None; timestamp := t0; loading := Some true |};
    {| model := "Grok 4.1 Thinking (xAI) - Dec 2025"; response := "";
       error := None; timestamp := t1; loading := Some true |};
    {| model := "Claude Opus 4.5 (Anthropic) - Dec 2025"; response := "";
       error := None; timestamp := t2; loading := Some true |};
    {| model := "Gemini 3 Pro (Google) - Dec 2025"; response := "";
       error := None; timestamp := t3; loading := Some true |} ].

Definition modelEndpoints : list (string * nat) :=
  [ ("/api/query-individual/gpt", 0%nat);
    ("/api/query-individual/grok", 1%nat);
    ("/api/query-individual/claude", 2%nat);
    ("/api/query-individual/gemini", 3%nat) ].

(** The part of [handleSubmit] that runs when the form is submitted: up to
    the first [await].  [t0] .. [t3] are the four readings of [Date.now()]. *)
Definition handleSubmit `{Host} (t0 t1 t2 t3 : number) (w : World) : World :=
  let s := ui w in
  if negb (truthy (trim (st_query s))) then w
  else
    let enhancedQuery := enhanceQueryWithLocation (st_location s) (st_query s) in
    let s := setLoading true s in
    let s := setResults (fun _ =>
               Some {| query := enhancedQuery;
                       responses := initialResponses t0 t1 t2 t3;
                       analysis := None |}) s in
    let s := setHistory (fun prev => st_query (ui w) :: take 19 prev) s in
    {| ui := s;
       fetches := fetches w ++
         map (fun '(endpoint, index) =>
                {| submission := submissions w; endpoint := endpoint;
                   index := index; body := enhancedQuery |}) modelEndpoints;
       analyses := analyses w; locating := locating w;
       submissions := S (submissions w);
       submitted := st_query (ui w) :: submitted w;
       settled := settled w |}.

(** The updater a continuation passes to [setResults] once the response
    body [data] has been parsed. *)
Definition onData (index : nat) (data : LLMResponse)
    (prev : option QueryResult) : option (option QueryResult) :=
  match prev with
  | None => Some None
  | Some p =>
      newResponses ← assign index (loaded data) (responses p);
      Some (Some {| query := query p; responses := newResponses;
                    analysis := analysis p |})
  end.

(** The updater of the [catch] branch. *)
Definition onError (index : nat)
    (prev : option QueryResult) : option (option QueryResult) :=
  match prev with
  | None => Some None
  | Some p =>
      slot ← responses p !! index;
      newResponses ← assign index (failed slot) (responses p);
      Some (Some {| query := query p; responses := newResponses;
                    analysis := analysis p |})
  end.

(** The updater for the outcome of a request: [Some data] when [fetch] and
    [response.json()] delivered [data], [None] when either threw. *)
Definition updater (index : nat) (outcome : option LLMResponse)
    (prev : option QueryResult) : option (option QueryResult) :=
  match outcome with
  | Some data => onData index data prev
  | None => onError index prev
  end.

(** No request of submission [g] is left among [rest]: [Promise.all] of
    that submission resolves. *)
Definition allSettled (g : nat) (rest : list Request) : bool :=
  every (fun r => negb (submission r =? g)%nat) rest.

(** The continuation of the [k]-th request in flight runs.  When it was the
    last one of its submission, [setLoading(false)] follows. *)
Definition settle (k : nat) (outcome : option LLMResponse)
    (w : World) : option World :=
  rq ← fetches w !! k;
  results' ← updater (index rq) outcome (st_results (ui w));
  let rest := delete k (fetches w) in
  let s := setResults (fun _ => results') (ui w) in
  let s := if allSettled (submission rq) rest then setLoading false s else s in
  Some {| ui := s; fetches := rest; analyses := analyses w;
          locating := locating w; submissions := submissions w;
          submitted := submitted w;
          settled := (submission rq, index rq) :: settled w |}.

(** ** [handleAnalyze] *)

Definition handleAnalyze (w : World) : World :=
  match st_results (ui w) with
  | None => w
  | Some results =>
      {| ui := setAnalyzing true (ui w); fetches := fetches w;
         analyses := analyses w ++
           [ {| areq_query := query results;
                areq_responses := responses results |} ];
         locating := locating w; submissions := submissions w;
         submitted := submitted w; settled := settled w |}
  end.

(** [{ ...prev, analysis: a }] *)
Definition withAnalysis (a : option string) (prev : QueryResult) : QueryResult :=
  {| query := query prev; responses := responses prev; analysis := a |}.

(** The [k]-th analysis request in flight comes back: [Some a] when the
    body was parsed and its [analysis] member is [a], [None] when [fetch]
    or [response.json()] threw. *)
Definition analyzeSettle (k : nat) (outcome : option (option string))
    (w : World) : option World :=
  _ ← analyses w !! k;
  let s := match outcome with
           | Some a => setResults (fmap (withAnalysis a)) (ui w)
           | None => ui w
           end in
  Some {| ui := setAnalyzing false s; fetches := fetches w;
          analyses := delete k (analyses w);
          locating := locating w; submissions := submissions w;
          submitted := submitted w; settled := settled w |}.

(** What comes back for the analysis request: [fetch] or
    [response.json()] throws, or there is an answer, with a status that is
    a success ([response.ok]) or not, whose body has been parsed and has
    the [analysis] member given ([None] when it has none).  [fetch] does
    not throw on an error status, and the continuation never reads the
    status: an answer of either kind goes to the updater. *)
Inductive Answer : Type :=
| Threw
| Answered (ok : bool) (analysis : option string).

Definition outcomeOf (ans : Answer) : option (option string) :=
  match ans with
  | Threw => None
  | Answered _ a => Some a
  end.

(** The request failed: it threw, or it was answered with an error
    status. *)
Definition failedAnswer (ans : Answer) : bool :=
  match ans with
  | Threw => true
  | Answered ok _ => negb ok
  end.

(** ** Runs of the page *)

Inductive Event : Type :=
| Located (g : Geolocation)
| Typed (text : string)
| Submitted (t0 t1 t2 t3 : number)
| Settled (k : nat) (outcome : option LLMResponse)
| AnalyzeClicked
| AnalyzeSettled (k : nat) (outcome : option (option string))
| SidebarToggled (open : bool).

(** One turn of the event loop.  A handler may run in any state: what the
    page disables or hides is a matter of the rendering below, and the
    continuations of requests run whenever their request is in flight. *)
Definition step `{Host} (w : World) (e : Event) : option World :=
  match e with
  | Located g =>
      if locating w
      then Some {| ui := requestLocation g (ui w); fetches := fetches w;
                   analyses := analyses w; locating := false;
                   submissions := submissions w; submitted := submitted w;
                   settled := settled w |}
      else None
  | Typed text => Some (withUi (setQuery text) w)
  | Submitted t0 t1 t2 t3 => Some (handleSubmit t0 t1 t2 t3 w)
  | Settled k outcome => settle k outcome w
  | AnalyzeClicked => Some (handleAnalyze w)
  | AnalyzeSettled k outcome => analyzeSettle k outcome w
  | SidebarToggled open => Some (withUi (setSidebarOpen open) w)
  end.

Fixpoint run `{Host} (w : World) (trace : list Event) : option World :=
  match trace with
  | [] => Some w
  | e :: trace' => w' ← step w e; run w' trace'
  end.

Definition reachable `{Host} (w : World) : Prop :=
  exists trace, run initialWorld trace = Some w.

(** ** What the page renders *)

(** The query field is disabled. *)
Definition inputDisabled (s : HomeState) : bool := st_loading s.

(** The submit button is disabled. *)
Definition submitDisabled (s : HomeState) : bool :=
  st_loading s || negb (truthy (trim (st_query s))).

(** The button that calls [handleAnalyze] is rendered. *)
Definition analyzeShown (s : HomeState) : bool :=
  match st_results s with
  | Some results => every (fun r => negb (isLoading r)) (responses results)
  | None => false
  end.

(** That button, when rendered, is disabled. *)
Definition analyzeDisabled (s : HomeState) : bool := st_analyzing s.

(** ** The wording of the specification

    The notions the specification uses for the enrichment rule, written
    down independently of the code, to be compared with it. *)

Module Spec.

(** [k] occurs in [q] as a substring, up to letter case. *)
Definition mentions (q k : string) : Prop :=
  exists p m r, q = p ++ m ++ r /\ toLowerCase m = toLowerCase k.

(** [q] contains one of the locality keywords. *)
Definition localityRelevant (q : string) : Prop :=
  exists k, In k locationKeywords /\ mentions q k.

(** A place name, city [c] and country [k], is known for the location. *)
Definition placeKnown (l : Location) (c k : string) : Prop :=
  city l = Some c /\ c <> "" /\ country l = Some k /\ k <> "".

(** [|x|] as the fraction [numerator x / denominator x]. *)
Definition numerator (x : number) : Z := Z.abs (mant x) * 2 ^ Z.max 0 (expo x).
Definition denominator (x : number) : Z := 2 ^ Z.max 0 (- expo x).

(** [|x| < 10 ^ 21] *)
Definition below1e21 (x : number) : Prop :=
  numerator x < 10 ^ 21 * denominator x.

(** A decimal digit, and the number it stands for. *)
Definition isDigit (c : ascii) : bool :=
  ((48 <=? N_of_ascii c) && (N_of_ascii c <=? 57))%N.

Fixpoint allDigits (s : string) : bool :=
  match s with
  | EmptyString => true
  | String c s' => isDigit c && allDigits s'
  end.

(** The number a string of decimal digits denotes. *)
Fixpoint decimalValue (acc : Z) (s : string) : Z :=
  match s with
  | EmptyString => acc
  | String c s' => decimalValue (10 * acc + (Z.of_N (N_of_ascii c) - 48)) s'
  end.

(** [s] is the way a whole number is written: decimal digits, at least
    one, and no leading zero except in ["0"] itself. *)
Definition wholePart (s : string) : Prop :=
  allDigits s = true /\ s <> "" /\ (forall r, s = String "0" r -> r = "").

(** [s] is [x] rounded to two decimal places: a minus sign when [x] is
    negative, a whole part, a point and two digits, which read together
    are the number [n] of hundredths nearest to [|x|], the larger one when
    two are equally near. *)
Definition roundedTo2 (x : number) (s : string) : Prop :=
  exists n whole fraction,
    2 * (100 * numerator x - n * denominator x) < denominator x /\
    2 * (n * denominator x - 100 * numerator x) <= denominator x /\
    wholePart whole /\
    allDigits fraction = true /\ String.length fraction = 2%nat /\
    decimalValue 0 (whole ++ fraction) = n /\
    s = (if mant x <? 0 then "-" else "") ++ whole ++ "." ++ fraction.

End Spec.

(** What [toFixed(2)] writes for [n] hundredths, in terms of the digits of
    [n]. *)
Definition hundredths (n : Z) : string :=
  digits (n / 100) ++ "." ++
  String (digit (n / 10 mod 10)) (String (digit (n mod 10)) "").

(** ** Invariants of the runs *)

(** The submission and slot a request's continuation writes for. *)
Definition key (rq : Request) : nat * nat := (submission rq, index rq).

Record Inv (w : World) : Prop := {
  (** requests in flight belong to a past submission and to one of the
      four slots *)
  inv_fetches : forall rq, In rq (fetches w) ->
    (submission rq < submissions w)%nat /\ (index rq < 4)%nat;
  (** once a query has been submitted there is a result set *)
  inv_results : (0 < submissions w)%nat ->
    exists r, st_results (ui w) = Some r;
  (** a result set has four slots *)
  inv_slots : forall r, st_results (ui w) = Some r ->
    length (responses r) = 4%nat;
  (** a continuation that has run is not in flight, and has run once *)
  inv_once : NoDup (map key (fetches w) ++ settled w);
  inv_settled : forall g i, In (g, i) (settled w) ->
    (g < submissions w)%nat;
  (** the history is the latest twenty accepted queries *)
  inv_history : st_history (ui w) = take 20 (submitted w)
}.

(** What the updater of a continuation makes of the previous result
    set: nothing when there is none, and otherwise the same result set
    with the slot at [index] replaced. *)
Definition updates (index : nat) (outcome : option LLMResponse)
    (prev res : option QueryResult) : Prop :=
  match prev with
  | None => res = None
  | Some p =>
      exists slot, responses p !! index = Some slot /\
        res = Some {| query := query p;
                      responses :=
                        <[ index := match outcome with
                                    | Some data => loaded data
                                    | None => failed slot
                                    end ]> (responses p);
                      analysis := analysis p |}
  end.

(** ** Sample data *)

Module Sample.

(** A host for evaluating examples; they stay below [10 ^ 21], where
    [Number::toString] is not consulted. *)
Definition host : Host := {| Number_toString := fun _ => "1e+21" |}.

(** The numbers 48.856 and 2.352 in double precision. *)
Definition lat : number := Number 6875870731087905 (-47).
Definition lon : number := Number 5296233161787703 (-51).

Definition paris : Location :=
  {| city := Some "Paris"; country := Some "France";
     latitude := lat; longitude := lon |}.

Definition unnamed : Location :=
  {| city := None; country := None; latitude := lat; longitude := lon |}.

Definition cityOnly : Location :=
  {| city := Some "Paris"; country := None;
     latitude := lat; longitude := lon |}.

Definition now : number := ofZ 1767225600000.

(** A response body whose label differs from the one the page shows
    while the request is pending. *)
Definition answer : LLMResponse :=
  {| model := "gpt-5.2"; response := "42"; error := None;
     timestamp := now; loading := None |}.

(** ["first"] has been submitted. *)
Definition oneSubmission : list Event :=
  [ Typed "first"; Submitted now now now now ].

(** ["second"] has been submitted while the requests for ["first"] are
    still in flight. *)
Definition twoSubmissions : list Event :=
  oneSubmission ++ [ Typed "second"; Submitted now now now now ].

(** The four requests of one submission have settled and the analysis
    has been asked for. *)
Definition analysing : list Event :=
  oneSubmission ++
  [ Settled 0 (Some answer); Settled 0 None; Settled 0 (Some answer);
    Settled 0 (Some answer); AnalyzeClicked ].

Definition after (trace : list Event) : World :=
  default initialWorld (run (H := host) initialWorld trace).

End Sample.

(** ** Further invariants of the runs *)

(** What holds of the requests of the latest submission, of the loading
    flag and of the location, in every run. *)
Record Flow (w : World) : Prop := {
  (** only queries that are not blank have been accepted *)
  flow_accepted : Forall (fun q => trim q <> "") (submitted w);
  (** a pending slot waits for a request of the latest submission *)
  flow_pending : forall r i slot,
    st_results (ui w) = Some r -> responses r !! i = Some slot ->
    isLoading slot = true ->
    exists rq, In rq (fetches w) /\ S (submission rq) = submissions w /\
               index rq = i;
  (** with nothing in flight the page is not loading *)
  flow_quiet : fetches w = [] -> st_loading (ui w) = false;
  (** the requests of the latest submission carry the query of the
      result set *)
  flow_body : forall rq r, In rq (fetches w) ->
    S (submission rq) = submissions w -> st_results (ui w) = Some r ->
    body rq = query r;
  (** there is a result set only after a submission *)
  flow_results : forall r, st_results (ui w) = Some r ->
    (0 < submissions w)%nat;
  (** while [requestLocation] runs nothing is known *)
  flow_locating : locating w = true ->
    st_location (ui w) = None /\ st_locationPermission (ui w) = "prompt";
  (** a location is stored exactly when permission was granted *)
  flow_granted : st_location (ui w) <> None <->
    st_locationPermission (ui w) = "granted"
}.

(** The continuations of all requests in flight run, first in flight
    first, with the given outcomes. *)
Definition settleAll (outcomes : list (option LLMResponse)) : list Event :=
  map (Settled 0) outcomes.

(** The first of the optional strings that is present. *)
Fixpoint firstPresent (l : list (option string)) : option string :=
  match l with
  | [] => None
  | o :: l' => if present o then o else firstPresent l'
  end.

(** The place name a reverse-geocoding answer gives: the first of city,
    town and village that is not empty, with a country that is not
    empty. *)
Definition resolvedPlace (geocoded : option (option Address))
    : option (string * string) :=
  match geocoded with
  | Some (Some a) =>
      match firstPresent [addr_city a; addr_town a; addr_village a],
            addr_country a with
      | Some n, Some c => if truthy c then Some (n, c) else None
      | _, _ => None
      end
  | _ => None
  end.

(** ** The controls of the page *)

(** The event can come about through what the page renders in state [w]:
    the query field is disabled while loading, but an entry of the history
    can be clicked at any time; the form is submitted through its button,
    disabled while loading or for a blank query; the analysis button is
    there when no slot is pending and disabled while analyzing; the sidebar
    has a button to close it and, while closed, one to open it.  What the
    environment does (a location or a response arriving) is not up to the
    page. *)
Definition permitted (w : World) (e : Event) : bool :=
  let s := ui w in
  match e with
  | Located _ | Settled _ _ | AnalyzeSettled _ _ => true
  | Typed text =>
      negb (inputDisabled s) || existsb (String.eqb text) (st_history s)
  | Submitted _ _ _ _ => negb (submitDisabled s)
  | AnalyzeClicked => analyzeShown s && negb (analyzeDisabled s)
  | SidebarToggled open => negb open || negb (st_sidebarOpen s)
  end.

(** The welcome panel is rendered: there is no result set and the page is
    not loading. *)
Definition welcomeShown (s : HomeState) : bool :=
  negb (bool_decide (is_Some (st_results s))) && negb (st_loading s).

(** A run in which every event is one the page permits. *)
Fixpoint uiRun `{Host} (w : World) (trace : list Event) : option World :=
  match trace with
  | [] => Some w
  | e :: trace' =>
      if permitted w e then w' ← step w e; uiRun w' trace' else None
  end.

Definition uiReachable `{Host} (w : World) : Prop :=
  exists trace, uiRun initialWorld trace = Some w.

(** What holds in the runs the page permits. *)
Record Gated (w : World) : Prop := {
  (** the page is loading exactly while a request is in flight *)
  gated_loading : st_loading (ui w) = true <-> fetches w <> [];
  (** every request in flight is one of the latest submission *)
  gated_latest : forall rq, In rq (fetches w) ->
    S (submission rq) = submissions w;
  (** a slot is pending exactly while its request is in flight *)
  gated_pending : forall r i slot,
    st_results (ui w) = Some r -> responses r !! i = Some slot ->
    (isLoading slot = true <-> exists rq, In rq (fetches w) /\ index rq = i);
  (** the analysis is marked as running exactly while its request is in
      flight, and there is at most one *)
  gated_analyzing : st_analyzing (ui w) = true <-> analyses w <> [];
  gated_single : (length (analyses w) <= 1)%nat;
  (** an analysis request was made for four settled responses *)
  gated_bodies : forall a, In a (analyses w) ->
    length (areq_responses a) = 4%nat /\
    Forall (fun r => isLoading r = false) (areq_responses a)
}.

(** ** The earlier version of the page

    The first [Home] of [src/app/page.tsx] sends one request for all
    providers and waits for the whole answer.  It has the cells of the
    later version except the two for the location, which stay as they are
    initially. *)

Module Batch.

(** The state, the queries whose request is in flight (the query each
    continuation has captured) and the analysis requests in flight;
    [succeeded] is a history variable, the queries whose request
    succeeded, latest first. *)
Record World : Type := {
  page : HomeState;
  queries : list string;
  pendingAnalyses : list AnalyzeRequest;
  succeeded : list string
}.

Definition initialWorld : World :=
  {| page := initialState; queries := []; pendingAnalyses := [];
     succeeded := [] |}.

Definition withPage (f : HomeState -> HomeState) (w : World) : World :=
  {| page := f (page w); queries := queries w;
     pendingAnalyses := pendingAnalyses w; succeeded := succeeded w |}.

(** [handleSubmit] up to its [await]. *)
Definition handleSubmit (w : World) : World :=
  if negb (truthy (trim (st_query (page w)))) then w
  else
    {| page := setResults (fun _ => None) (setLoading true (page w));
       queries := queries w ++ [st_query (page w)];
       pendingAnalyses := pendingAnalyses w; succeeded := succeeded w |}.

(** The rest of [handleSubmit], for the [k]-th request in flight: with
    [Some data] when the body was parsed, with [None] when [fetch] or
    [response.json()] threw; [finally] ends the loading. *)
Definition querySettle (k : nat) (outcome : option QueryResult)
    (w : World) : option World :=
  q ← queries w !! k;
  Some
    match outcome with
    | Some data =>
        {| page := setLoading false
                     (setHistory (fun prev => q :: take 19 prev)
                        (setResults (fun _ => Some data) (page w)));
           queries := delete k (queries w);
           pendingAnalyses := pendingAnalyses w;
           succeeded := q :: succeeded w |}
    | None =>
        {| page := setLoading false (page w);
           queries := delete k (queries w);
           pendingAnalyses := pendingAnalyses w;
           succeeded := succeeded w |}
    end.

Definition handleAnalyze (w : World) : World :=
  match st_results (page w) with
  | None => w
  | Some results =>
      {| page := setAnalyzing true (page w); queries := queries w;
         pendingAnalyses := pendingAnalyses w ++
           [ {| areq_query := query results;
                areq_responses := responses results |} ];
         succeeded := succeeded w |}
  end.

Definition analyzeSettle (k : nat) (outcome : option (option string))
    (w : World) : option World :=
  _ ← pendingAnalyses w !! k;
  let s := match outcome with
           | Some a => setResults (fmap (withAnalysis a)) (page w)
           | None => page w
           end in
  Some {| page := setAnalyzing false s; queries := queries w;
          pendingAnalyses := delete k (pendingAnalyses w);
          succeeded := succeeded w |}.

(** The button "New Search". *)
Definition newSearch (w : World) : World :=
  withPage (fun s => setQuery "" (setResults (fun _ => None) s)) w.

Inductive Event : Type :=
| Typed (text : string)
| Submitted
| QuerySettled (k : nat) (outcome : option QueryResult)
| AnalyzeClicked
| AnalyzeSettled (k : nat) (outcome : option (option string))
| NewSearch
| SidebarToggled (open : bool).

Definition step (w : World) (e : Event) : option World :=
  match e with
  | Typed text => Some (withPage (setQuery text) w)
  | Submitted => Some (handleSubmit w)
  | QuerySettled k outcome => querySettle k outcome w
  | AnalyzeClicked => Some (handleAnalyze w)
  | AnalyzeSettled k outcome => analyzeSettle k outcome w
  | NewSearch => Some (newSearch w)
  | SidebarToggled open => Some (withPage (setSidebarOpen open) w)
  end.

Fixpoint run (w : World) (trace : list Event) : option World :=
  match trace with
  | [] => Some w
  | e :: trace' => w' ← step w e; run w' trace'
  end.

Definition reachable (w : World) : Prop :=
  exists trace, run initialWorld trace = Some w.

(** The results view is rendered, not the search view. *)
Definition resultsShown (s : HomeState) : bool :=
  bool_decide (is_Some (st_results s)).

(** The button that calls [handleAnalyze] is rendered: in the results
    view, as long as the result set has no analysis. *)
Definition analyzeShown (s : HomeState) : bool :=
  match st_results s with
  | Some results => negb (present (analysis results))
  | None => false
  end.

Record Inv (w : World) : Prop := {
  inv_loading : st_loading (page w) = true -> st_results (page w) = None;
  inv_history : st_history (page w) = take 20 (succeeded w);
  inv_queries : Forall (fun q => trim q <> "") (queries w);
  inv_succeeded : Forall (fun q => trim q <> "") (succeeded w)
}.

(** A query is sent and fails; another is sent and answered. *)
Definition sample : list Event :=
  [ Typed "first"; Submitted; QuerySettled 0 None;
    Typed "second"; Submitted;
    QuerySettled 0
      (Some {| query := "second"; responses := []; analysis := None |}) ].

Definition after (trace : list Event) : World :=
  default initialWorld (run initialWorld trace).

End Batch.

(** ** More sample data *)

Module Scenario.

(** A reverse-geocoding answer that names a town, not a city. *)
Definition delft : Address :=
  {| addr_city := None; addr_town := Some "Delft"; addr_village := None;
     addr_country := Some "Netherlands" |}.

Definition located : list Event :=
  [ Located (GeoPosition Sample.lat Sample.lon (Some (Some delft))) ].

Definition denied : list Event := [ Located GeoDenied ].

(** One submission, with its four requests settled. *)
Definition completed : list Event :=
  (Sample.oneSubmission ++
   settleAll [Some Sample.answer; None; Some Sample.answer;
              Some Sample.answer])%list.

(** The analysis of ["first"] is running and ["second"] is in the query
    field. *)
Definition analysingThenTyped : list Event :=
  (completed ++ [ AnalyzeClicked; Typed "second" ])%list.

(** The analysis of ["first"] has arrived and has been asked for once
    more. *)
Definition analysedTwice : list Event :=
  (completed ++ [ AnalyzeClicked; AnalyzeSettled 0 (Some (Some "all agree"));
                  AnalyzeClicked ])%list.

Definition afterUi (trace : list Event) : World :=
  default initialWorld (uiRun (H := Sample.host) initialWorld trace).

End Scenario.

(** * Properties *)

(** ** Strings *)

Section StringFacts.

Lemma allWhiteSpace_trimStart s :
  allWhiteSpace (trimStart s) = allWhiteSpace s.
Proof.
  induction s as [|c s IH]; simpl; [reflexivity|].
  destruct (isWhiteSpace c) eqn:E; simpl; [exact IH | now rewrite E].
Qed.

Lemma trimEnd_empty s :
  trimEnd s = "" <-> allWhiteSpace s = true.
Proof.
  induction s as [|c s IH]; simpl; [tauto|].
  destruct (trimEnd s) eqn:E.
  - destruct (isWhiteSpace c); simpl.
    + tauto.
    + split; discriminate.
  - split; [discriminate|].
    intros [_ Hs]%andb_prop. apply IH in Hs. discriminate.
Qed.

Lemma trim_empty s :
  trim s = "" <-> allWhiteSpace s = true.
Proof.
  unfold trim. rewrite trimEnd_empty. now rewrite allWhiteSpace_trimStart.
Qed.

Lemma truthy_trim s :
  truthy (trim s) = negb (allWhiteSpace s).
Proof.
  destruct (allWhiteSpace s) eqn:E.
  - apply trim_empty in E. now rewrite E.
  - destruct (trim s) eqn:T; [|reflexivity].
    apply trim_empty in T. congruence.
Qed.

Lemma allWhiteSpace_Forall s :
  allWhiteSpace s = true <->
  Forall (fun c => isWhiteSpace c = true) (list_ascii_of_string s).
Proof.
  induction s as [|c s IH]; simpl.
  - split; [constructor | reflexivity].
  - rewrite andb_true_iff, IH. split.
    + intros [? ?]. now constructor.
    + intros Hf. inversion Hf; subst. tauto.
Qed.

Lemma prefix_app k s :
  String.prefix k s = true <-> exists r, s = k ++ r.
Proof.
  revert s. induction k as [|a k IH]; intros s.
  - split; [exists s; reflexivity | destruct s; reflexivity].
  - destruct s as [|b s]; simpl.
    + split; [discriminate | intros [r Hr]; discriminate].
    + destruct (ascii_dec a b) as [->|Hab].
      * rewrite IH. split; intros [r Hr]; exists r; simpl in *; congruence.
      * split; [discriminate | intros [r Hr]; simpl in Hr; congruence].
Qed.

Lemma includes_unfold s k :
  includes s k =
  if String.prefix k s then true
  else match s with
       | EmptyString => false
       | String _ s' => includes s' k
       end.
Proof. destruct s; reflexivity. Qed.

Lemma includes_app s k :
  includes s k = true <-> exists p r, s = p ++ k ++ r.
Proof.
  induction s as [|c s IH]; rewrite includes_unfold;
    match goal with |- context [String.prefix k ?t] =>
      destruct (String.prefix k t) eqn:E end.
  - split; [intros _ | reflexivity].
    apply prefix_app in E as [r Hr]. now exists "", r.
  - split; [discriminate|]. intros (p & r & Hp).
    destruct p; simpl in Hp; [|discriminate].
    assert (String.prefix k "" = true) by (apply prefix_app; eauto).
    congruence.
  - split; [intros _ | reflexivity].
    apply prefix_app in E as [r Hr]. now exists "", r.
  - rewrite IH. split.
    + intros (p & r & ->). now exists (String c p), r.
    + intros (p & r & Hp). destruct p as [|a p]; simpl in Hp.
      * assert (String.prefix k (String c s) = true)
          by (apply prefix_app; eauto).
        congruence.
      * injection Hp as -> ->. eauto.
Qed.

Lemma toLowerCase_app a b :
  toLowerCase (a ++ b) = toLowerCase a ++ toLowerCase b.
Proof. induction a as [|c a IH]; simpl; [reflexivity | now rewrite IH]. Qed.

Lemma toLowerCase_split q a b :
  toLowerCase q = a ++ b ->
  exists qa qb, q = qa ++ qb /\ toLowerCase qa = a /\ toLowerCase qb = b.
Proof.
  revert q. induction a as [|c a IH]; intros q Hq; simpl in Hq.
  - now exists "", q.
  - destruct q as [|d q]; simpl in Hq; [discriminate|].
    injection Hq as Hc Hq. apply IH in Hq as (qa & qb & -> & <- & <-).
    exists (String d qa), qb. simpl. now rewrite Hc.
Qed.

Lemma keyword_lower k :
  In k locationKeywords -> toLowerCase k = k.
Proof.
  unfold locationKeywords. simpl.
  intros H. repeat (destruct H as [<-|H]; [reflexivity|]). destruct H.
Qed.

(** The test of the code is the case-insensitive substring test of the
    specification. *)
Lemma shouldAddLocation_relevant q :
  shouldAddLocation q = true <-> Spec.localityRelevant q.
Proof.
  unfold shouldAddLocation, some, Spec.localityRelevant, Spec.mentions.
  rewrite existsb_exists. split.
  - intros (k & Hk & Hi). exists k. split; [exact Hk|].
    apply includes_app in Hi as (a & b & Hq).
    apply toLowerCase_split in Hq as (p & mr & -> & _ & Hmr).
    apply toLowerCase_split in Hmr as (m & r & -> & Hm & _).
    exists p, m, r. split; [reflexivity|].
    now rewrite (keyword_lower k Hk).
  - intros (k & Hk & p & m & r & -> & Hm). exists k. split; [exact Hk|].
    apply includes_app. exists (toLowerCase p), (toLowerCase r).
    now rewrite !toLowerCase_app, Hm, (keyword_lower k Hk).
Qed.

End StringFacts.

(** ** Numbers *)

Section NumberFacts.

Lemma log2_div10 n : 10 <= n -> Z.log2 (n / 10) < Z.log2 n.
Proof.
  intros Hn.
  assert (0 < n / 10) by (apply Z.div_str_pos; lia).
  apply Z.log2_lt_pow2; [assumption|].
  destruct (Z.log2_spec n) as [Hlo Hhi]; [lia|].
  rewrite Z.pow_succ_r in Hhi by apply Z.log2_nonneg.
  apply Z.div_lt_upper_bound; lia.
Qed.

Lemma digitsFuel_enough f f' n :
  0 <= n -> Z.log2 n < Z.of_nat f -> Z.log2 n < Z.of_nat f' ->
  digitsFuel f n = digitsFuel f' n.
Proof.
  revert f' n. induction f as [|f IH]; intros f' n Hn Hf Hf'.
  - pose proof (Z.log2_nonneg n). lia.
  - destruct f' as [|f']; [pose proof (Z.log2_nonneg n); lia|].
    simpl. destruct (n <? 10) eqn:E; [reflexivity|].
    apply Z.ltb_ge in E. pose proof (log2_div10 n E).
    rewrite (IH f' (n / 10)); [reflexivity| | lia | lia].
    apply Z.div_pos; lia.
Qed.

Lemma digits_small n : n < 10 -> digits n = String (digit n) "".
Proof.
  intros Hn. unfold digits. simpl.
  now destruct (Z.ltb_spec n 10); [|lia].
Qed.

Lemma digits_step n :
  10 <= n -> digits n = digits (n / 10) ++ String (digit (n mod 10)) "".
Proof.
  intros Hn. unfold digits at 1. simpl.
  destruct (Z.ltb_spec n 10); [lia|]. f_equal.
  pose proof (log2_div10 n Hn). pose proof (Z.log2_nonneg (n / 10)).
  apply digitsFuel_enough; [apply Z.div_pos; lia | lia | lia].
Qed.

Lemma length_app (a b : string) :
  String.length (a ++ b) = (String.length a + String.length b)%nat.
Proof. induction a as [|c a IH]; simpl; [reflexivity | now rewrite IH]. Qed.

Lemma append_assoc (a b c : string) : (a ++ b) ++ c = a ++ b ++ c.
Proof. induction a as [|x a IH]; simpl; [reflexivity | now rewrite IH]. Qed.

Lemma digits_nonempty n : (1 <= String.length (digits n))%nat.
Proof.
  destruct (Z.lt_ge_cases n 10) as [H|H].
  - rewrite digits_small by assumption. simpl. lia.
  - rewrite digits_step by assumption. rewrite length_app. simpl. lia.
Qed.

Lemma substring_whole b : substring 0 (String.length b) b = b.
Proof. induction b as [|c b IH]; simpl; [reflexivity | now rewrite IH]. Qed.

Lemma substring_front a b :
  substring 0 (String.length a) (a ++ b) = a.
Proof.
  induction a as [|c a IH]; simpl; [now destruct b | now rewrite IH].
Qed.

Lemma substring_back a b :
  substring (String.length a) (String.length b) (a ++ b) = b.
Proof.
  induction a as [|c a IH]; simpl; [apply substring_whole | exact IH].
Qed.

Lemma digit_value d :
  0 <= d < 10 -> Z.of_N (N_of_ascii (digit d)) - 48 = d.
Proof.
  intros Hd. unfold digit. rewrite N_ascii_embedding; lia.
Qed.

Lemma decimalValue_app acc a b :
  Spec.decimalValue acc (a ++ b) =
  Spec.decimalValue (Spec.decimalValue acc a) b.
Proof.
  revert acc. induction a as [|c a IH]; intros acc; simpl;
    [reflexivity | apply IH].
Qed.

(** [digits n] is the decimal representation of [n]. *)
Lemma decimalValue_digits n :
  0 <= n -> Spec.decimalValue 0 (digits n) = n.
Proof.
  intros Hn. unfold digits.
  assert (Hf : Z.log2 n < Z.of_nat (S (Z.to_nat (Z.log2 n))))
    by (pose proof (Z.log2_nonneg n); lia).
  revert Hf. generalize (S (Z.to_nat (Z.log2 n))) as f. revert n Hn.
  intros n Hn f. revert n Hn.
  induction f as [|f IH]; intros n Hn Hf.
  - pose proof (Z.log2_nonneg n). lia.
  - simpl. destruct (Z.ltb_spec n 10) as [H|H].
    + simpl. rewrite digit_value; lia.
    + rewrite decimalValue_app. pose proof (log2_div10 n H).
      rewrite IH; [| apply Z.div_pos; lia | lia].
      simpl. rewrite digit_value by (apply Z.mod_pos_bound; lia).
      pose proof (Z.div_mod n 10). lia.
Qed.

Lemma nearest_nonneg f x : 0 <= nearest f x.
Proof.
  unfold nearest.
  assert (0 <= Z.abs (mant x) * 10 ^ Z.of_nat f)
    by (apply Z.mul_nonneg_nonneg;
        [apply Z.abs_nonneg | apply Z.pow_nonneg; lia]).
  destruct (Z.leb_spec 0 (expo x)).
  - assert (0 <= 2 ^ expo x) by (apply Z.pow_nonneg; lia). nia.
  - assert (0 < 2 ^ (- expo x)) by (apply Z.pow_pos_nonneg; lia).
    apply Z.div_pos; lia.
Qed.

Lemma below1e21_atLeast x :
  Spec.below1e21 x <-> atLeast1e21 x = false.
Proof.
  unfold Spec.below1e21, Spec.numerator, Spec.denominator, atLeast1e21.
  destruct (Z.leb_spec 0 (expo x)).
  - rewrite (Z.max_r 0 (expo x)), (Z.max_l 0 (- expo x)) by lia. rewrite Z.leb_gt. simpl (2 ^ 0). lia.
  - rewrite (Z.max_l 0 (expo x)), (Z.max_r 0 (- expo x)) by lia. rewrite Z.leb_gt. simpl (2 ^ 0). lia.
Qed.

(** [nearest 2 x] is a number of hundredths nearest to [|x|]. *)
Lemma nearest_close x :
  2 * Z.abs (nearest 2 x * Spec.denominator x - 100 * Spec.numerator x)
  <= Spec.denominator x.
Proof.
  unfold nearest, Spec.numerator, Spec.denominator.
  change (10 ^ Z.of_nat 2) with 100.
  destruct (Z.leb_spec 0 (expo x)).
  - rewrite (Z.max_r 0 (expo x)), (Z.max_l 0 (- expo x)) by lia. simpl (2 ^ 0).
    replace (_ - _) with 0 by ring. simpl. lia.
  - rewrite (Z.max_l 0 (expo x)), (Z.max_r 0 (- expo x)) by lia. simpl (2 ^ 0).
    set (a := Z.abs (mant x)). set (d := 2 ^ (- expo x)).
    assert (0 < d) by (apply Z.pow_pos_nonneg; lia).
    pose proof (Z.div_mod (2 * (a * 100) + d) (2 * d) ltac:(lia)) as Hdm.
    pose proof (Z.mod_pos_bound (2 * (a * 100) + d) (2 * d) ltac:(lia)).
    set (n := (2 * (a * 100) + d) / (2 * d)) in *.
    nia.
Qed.

(** Below [10 ^ 21], [toFixed(2)] writes the nearest number of
    hundredths, with a sign for negative numbers. *)
Lemma toFixed2_hundredths `{Host} x :
  atLeast1e21 x = false ->
  toFixed 2 x =
  (if mant x <? 0 then "-" else "") ++ hundredths (nearest 2 x).
Proof.
  intros Hx. unfold toFixed, isNegative. rewrite Hx. f_equal.
  pose proof (nearest_nonneg 2 x) as Hn.
  set (n := nearest 2 x) in *. unfold hundredths.
  destruct (Z.lt_ge_cases n 10) as [H10|H10].
  - rewrite (digits_small n H10). simpl.
    rewrite Z.div_small, (Z.div_small n 10), Z.mod_0_l, Z.mod_small by lia.
    reflexivity.
  - rewrite (digits_step n H10).
    destruct (Z.lt_ge_cases n 100) as [H100|H100].
    + assert (n / 10 < 10) by (apply Z.div_lt_upper_bound; lia).
      assert (0 <= n / 10) by (apply Z.div_pos; lia).
      rewrite (digits_small (n / 10)) by assumption. simpl.
      rewrite (Z.div_small n 100), (Z.mod_small (n / 10) 10) by lia.
      reflexivity.
    + assert (10 <= n / 10) by (apply Z.div_le_lower_bound; lia).
      rewrite (digits_step (n / 10)) by assumption.
      rewrite Z.div_div by lia. change (10 * 10) with 100.
      pose proof (digits_nonempty (n / 100)) as Hlen.
      set (D := digits (n / 100)) in *.
      set (d1 := digit (n / 10 mod 10)). set (d0 := digit (n mod 10)).
      rewrite append_assoc. simpl (String d1 "" ++ String d0 "").
      rewrite length_app. simpl (String.length (String d1 (String d0 ""))).
      destruct (Nat.leb_spec (String.length D + 2) 2); [lia|].
      replace (String.length D + 2 - 2)%nat with (String.length D) by lia.
      rewrite substring_front.
      pose proof (substring_back D (String d1 (String d0 ""))) as Hb.
      change (String.length (String d1 (String d0 ""))) with 2%nat in Hb.
      now rewrite Hb.
Qed.

Lemma allDigits_app a b :
  Spec.allDigits (a ++ b) = Spec.allDigits a && Spec.allDigits b.
Proof.
  induction a as [|c a IH]; simpl; [reflexivity|].
  now rewrite IH, andb_assoc.
Qed.

Lemma isDigit_digit d : 0 <= d < 10 -> Spec.isDigit (digit d) = true.
Proof.
  intros Hd. unfold Spec.isDigit, digit. rewrite N_ascii_embedding by lia.
  apply andb_true_intro. split; apply N.leb_le; lia.
Qed.

Lemma allDigits_digits n : 0 <= n -> Spec.allDigits (digits n) = true.
Proof.
  intros Hn. revert n Hn Hn.
  apply (Z_lt_induction
           (fun n => 0 <= n -> Spec.allDigits (digits n) = true)).
  intros n IH Hn. destruct (Z.lt_ge_cases n 10) as [H|H].
  - rewrite digits_small by lia. simpl.
    now rewrite isDigit_digit by lia.
  - assert (Hq : 0 <= n / 10 < n)
      by (split; [apply Z.div_pos | apply Z.div_lt]; lia).
    rewrite digits_step, allDigits_app by assumption. simpl.
    rewrite (IH (n / 10) Hq) by lia.
    now rewrite isDigit_digit by (apply Z.mod_pos_bound; lia).
Qed.

Lemma digit_zero d : 0 <= d < 10 -> digit d = "0"%char -> d = 0.
Proof.
  intros Hd E. rewrite <- (digit_value d Hd), E. reflexivity.
Qed.

(** [digits n] has no leading zero, except for ["0"]. *)
Lemma digits_leading n :
  0 <= n -> forall r, digits n = String "0" r -> n = 0 /\ r = "".
Proof.
  intros Hn. revert n Hn Hn.
  apply (Z_lt_induction
           (fun n => 0 <= n ->
                     forall r, digits n = String "0" r -> n = 0 /\ r = "")).
  intros n IH Hn r. destruct (Z.lt_ge_cases n 10) as [H|H].
  - rewrite digits_small by lia. intros [= E <-].
    split; [now apply digit_zero | reflexivity].
  - rewrite digits_step by assumption.
    pose proof (digits_nonempty (n / 10)) as Hlen.
    destruct (digits (n / 10)) as [|c t] eqn:E; [simpl in Hlen; lia|].
    simpl. intros [= -> _].
    assert (Hq : 0 <= n / 10 < n)
      by (split; [apply Z.div_pos | apply Z.div_lt]; lia).
    destruct (IH (n / 10) Hq ltac:(lia) t E) as [Hz _].
    assert (1 <= n / 10) by (apply Z.div_le_lower_bound; lia). lia.
Qed.

Lemma wholePart_digits n : 0 <= n -> Spec.wholePart (digits n).
Proof.
  intros Hn. split; [now apply allDigits_digits|]. split.
  - pose proof (digits_nonempty n) as Hlen. intros E. rewrite E in Hlen.
    simpl in Hlen. lia.
  - intros r E. now apply (digits_leading n Hn r).
Qed.

(** [nearest 2 x] is the number of hundredths nearest to [|x|], the larger
    one of two that are equally near. *)
Lemma nearest_exact x :
  2 * (100 * Spec.numerator x - nearest 2 x * Spec.denominator x)
    < Spec.denominator x /\
  2 * (nearest 2 x * Spec.denominator x - 100 * Spec.numerator x)
    <= Spec.denominator x.
Proof.
  unfold nearest, Spec.numerator, Spec.denominator.
  change (10 ^ Z.of_nat 2) with 100.
  destruct (Z.leb_spec 0 (expo x)).
  - rewrite (Z.max_r 0 (expo x)), (Z.max_l 0 (- expo x)) by lia.
    simpl (2 ^ 0). lia.
  - rewrite (Z.max_l 0 (expo x)), (Z.max_r 0 (- expo x)) by lia.
    simpl (2 ^ 0).
    set (a := Z.abs (mant x)). set (d := 2 ^ (- expo x)).
    assert (0 < d) by (apply Z.pow_pos_nonneg; lia).
    pose proof (Z.div_mod (2 * (a * 100) + d) (2 * d) ltac:(lia)) as Hdm.
    pose proof (Z.mod_pos_bound (2 * (a * 100) + d) (2 * d) ltac:(lia)).
    set (n := (2 * (a * 100) + d) / (2 * d)) in *.
    nia.
Qed.

Lemma hundredths_value n :
  0 <= n ->
  Spec.decimalValue 0
    (digits (n / 100) ++
     String (digit (n / 10 mod 10)) (String (digit (n mod 10)) "")) = n.
Proof.
  intros Hn. rewrite decimalValue_app.
  rewrite decimalValue_digits by (apply Z.div_pos; lia). simpl.
  rewrite !digit_value by (apply Z.mod_pos_bound; lia).
  pose proof (Z.div_mod n 10 ltac:(lia)).
  pose proof (Z.div_mod (n / 10) 10 ltac:(lia)).
  rewrite Z.div_div in * by lia. change (10 * 10) with 100 in *. lia.
Qed.

Lemma toFixed2_rounded `{Host} x :
  Spec.below1e21 x -> Spec.roundedTo2 x (toFixed 2 x).
Proof.
  intros Hx%below1e21_atLeast.
  pose proof (nearest_nonneg 2 x) as Hn.
  exists (nearest 2 x), (digits (nearest 2 x / 100)),
    (String (digit (nearest 2 x / 10 mod 10))
       (String (digit (nearest 2 x mod 10)) "")).
  destruct (nearest_exact x) as [Hlo Hhi].
  split; [exact Hlo|]. split; [exact Hhi|].
  split; [apply wholePart_digits, Z.div_pos; lia|].
  split.
  { simpl. now rewrite !isDigit_digit by (apply Z.mod_pos_bound; lia). }
  split; [reflexivity|].
  split; [now apply hundredths_value|].
  now apply toFixed2_hundredths.
Qed.

End NumberFacts.

(** ** Location enrichment *)

Section Enrichment.

Context `{Host}.

Lemma append_inv_head (a b c : string) : a ++ b = a ++ c -> b = c.
Proof.
  induction a as [|x a IH]; simpl; [tauto|]. intros E. apply IH. congruence.
Qed.

Lemma present_Some o :
  present o = true <-> exists s, o = Some s /\ s <> "".
Proof.
  destruct o as [[|c s]|]; simpl; split; try discriminate.
  - intros (s & [= <-] & Hs). congruence.
  - intros _. eexists. split; [reflexivity | discriminate].
  - reflexivity.
  - intros (s & [=] & _).
Qed.

Lemma placeKnown_present l :
  present (city l) && present (country l) = true <->
  exists c k, Spec.placeKnown l c k.
Proof.
  rewrite andb_true_iff, !present_Some. unfold Spec.placeKnown. split.
  - intros [(c & Hc & Hc') (k & Hk & Hk')]. now exists c, k.
  - intros (c & k & Hc & Hc' & Hk & Hk'). split; eauto.
Qed.

Lemma locationString_named l c k :
  Spec.placeKnown l c k -> locationString l = "in " ++ c ++ ", " ++ k.
Proof.
  intros Hp. unfold locationString.
  assert (Hb : present (city l) && present (country l) = true)
    by (apply placeKnown_present; eauto).
  rewrite Hb. destruct Hp as (-> & _ & -> & _). reflexivity.
Qed.

Lemma locationString_coordinates l :
  present (city l) && present (country l) = false ->
  locationString l =
  "at coordinates " ++ toFixed 2 (latitude l) ++ ", "
    ++ toFixed 2 (longitude l).
Proof. intros Hb. unfold locationString. now rewrite Hb. Qed.

Lemma enhance_relevant l q :
  shouldAddLocation q = true ->
  enhanceQueryWithLocation (Some l) q = q ++ " " ++ locationString l.
Proof. intros Hq. unfold enhanceQueryWithLocation. now rewrite Hq. Qed.

(** C3. A query is enriched only if a location is available and the query
    contains one of the locality keywords as a substring up to letter
    case; otherwise it is returned unchanged.  When enriched, the result
    is the query followed by " in <city>, <country>" when a place name is
    known, and otherwise by " at coordinates <lat>, <lon>", both
    coordinates (of magnitude below 10^21, as every geographic coordinate
    is) rounded to two decimal places. *)
Theorem C3_enrichment_rule (location : option Location) (q : string) :
  (location = None \/ ~ Spec.localityRelevant q ->
     enhanceQueryWithLocation location q = q) /\
  (forall l, location = Some l -> Spec.localityRelevant q ->
     (forall c k, Spec.placeKnown l c k ->
        enhanceQueryWithLocation location q = q ++ " in " ++ c ++ ", " ++ k) /\
     ((forall c k, ~ Spec.placeKnown l c k) ->
        Spec.below1e21 (latitude l) -> Spec.below1e21 (longitude l) ->
        exists lat lon,
          Spec.roundedTo2 (latitude l) lat /\
          Spec.roundedTo2 (longitude l) lon /\
          enhanceQueryWithLocation location q =
            q ++ " at coordinates " ++ lat ++ ", " ++ lon)).
Proof.
  split.
  - intros [-> | Hq]; [reflexivity|].
    destruct location as [l|]; [|reflexivity]. simpl.
    destruct (shouldAddLocation q) eqn:E; [|reflexivity].
    apply shouldAddLocation_relevant in E. contradiction.
  - intros l -> Hq%shouldAddLocation_relevant.
    rewrite (enhance_relevant l q Hq). split.
    + intros c k Hp. now rewrite (locationString_named l c k Hp).
    + intros Hno Hlat Hlon.
      exists (toFixed 2 (latitude l)), (toFixed 2 (longitude l)).
      split; [now apply toFixed2_rounded|].
      split; [now apply toFixed2_rounded|].
      rewrite locationString_coordinates; [reflexivity|].
      apply not_true_is_false. intros (c & k & Hp)%placeKnown_present.
      exact (Hno c k Hp).
Qed.

(** C10. For a query that matches a keyword, the place-name form is used
    only when the location has both a city and a country; when either is
    missing (or empty) the result is the coordinate form
    "<query> at coordinates <lat>, <lon>". *)
Theorem C10_place_name_needs_both (l : Location) (q : string) :
  shouldAddLocation q = true ->
  (present (city l) = false \/ present (country l) = false ->
     enhanceQueryWithLocation (Some l) q =
       q ++ " at coordinates " ++ toFixed 2 (latitude l) ++ ", "
         ++ toFixed 2 (longitude l)) /\
  (forall rest, enhanceQueryWithLocation (Some l) q = q ++ " in " ++ rest ->
     exists c k, city l = Some c /\ c <> "" /\ country l = Some k /\ k <> ""
                 /\ rest = c ++ ", " ++ k).
Proof.
  intros Hq. rewrite (enhance_relevant l q Hq).
  destruct (present (city l) && present (country l)) eqn:Hb.
  - split.
    + apply andb_prop in Hb as [Hc Hk]. intros [E|E]; congruence.
    + intros rest E. apply placeKnown_present in Hb as (c & k & Hp).
      rewrite (locationString_named l c k Hp) in E.
      apply append_inv_head in E. injection E as <-.
      destruct Hp as (? & ? & ? & ?). now exists c, k.
  - split.
    + intros _. now rewrite locationString_coordinates.
    + intros rest E. rewrite locationString_coordinates in E by assumption.
      apply append_inv_head in E. discriminate.
Qed.

End Enrichment.

(** ** Runs of the page *)

Section Runs.

Context `{Host}.

Lemma assign_Some {A} i (v : A) l l' :
  assign i v l = Some l' <-> (i < length l)%nat /\ l' = <[ i := v ]> l.
Proof.
  unfold assign. destruct (Nat.ltb_spec i (length l)); split.
  - intros [= <-]. auto.
  - intros [_ ->]. reflexivity.
  - discriminate.
  - intros [? _]. lia.
Qed.

Lemma updater_updates index outcome prev res :
  updater index outcome prev = Some res <-> updates index outcome prev res.
Proof.
  unfold updater, updates, onData, onError.
  destruct prev as [p|]; [|destruct outcome; split; congruence].
  destruct outcome as [data|]; simpl.
  - destruct (assign index (loaded data) (responses p)) as [l'|] eqn:E; simpl.
    + apply assign_Some in E as [Hi ->].
      destruct (lookup_lt_is_Some_2 (responses p) index Hi) as [slot Hs].
      split; [intros [= <-]; eauto | intros (? & _ & ->); reflexivity].
    + split; [discriminate|]. intros (slot & Hs & _).
      apply lookup_lt_Some in Hs.
      assert (assign index (loaded data) (responses p)
              = Some (<[index := loaded data]> (responses p)))
        by now apply assign_Some.
      congruence.
  - destruct (responses p !! index) as [slot|] eqn:Hs; simpl.
    + assert (Hi := lookup_lt_Some _ _ _ Hs).
      assert (E : assign index (failed slot) (responses p)
                  = Some (<[index := failed slot]> (responses p)))
        by now apply assign_Some.
      rewrite E. simpl.
      split; [intros [= <-]; eauto | intros (? & [= <-] & ->); reflexivity].
    + split; [discriminate | intros (? & [=] & _)].
Qed.

Lemma settle_Some k outcome w w' :
  settle k outcome w = Some w' <->
  exists rq res,
    fetches w !! k = Some rq /\
    updates (index rq) outcome (st_results (ui w)) res /\
    w' = {| ui := (if allSettled (submission rq) (delete k (fetches w))
                   then setLoading false else id)
                    (setResults (fun _ => res) (ui w));
            fetches := delete k (fetches w); analyses := analyses w;
            locating := locating w; submissions := submissions w;
            submitted := submitted w;
            settled := key rq :: settled w |}.
Proof.
  unfold settle.
  destruct (fetches w !! k) as [rq|] eqn:Hk; simpl.
  - destruct (updater (index rq) outcome (st_results (ui w))) as [res|] eqn:E;
      simpl.
    + apply updater_updates in E. split.
      * intros [= <-]. exists rq, res. repeat split; try assumption.
        now destruct (allSettled _ _).
      * intros (rq' & res' & [= <-] & Hu & ->).
        assert (res' = res) as ->.
        { apply updater_updates in E, Hu. congruence. }
        now destruct (allSettled _ _).
    + split; [discriminate|]. intros (rq' & res' & [= <-] & Hu & _).
      apply updater_updates in Hu. congruence.
  - split; [discriminate | intros (? & ? & [=] & _)].
Qed.

Lemma inv_initial : Inv initialWorld.
Proof.
  split; simpl; try (intros; lia || contradiction || discriminate || tauto).
  constructor.
Qed.

Lemma key_fresh w i :
  Inv w -> ~ In (submissions w, i) (map key (fetches w) ++ settled w).
Proof.
  intros I [Hin|Hin]%in_app_or.
  - apply in_map_iff in Hin as (rq & [= Hs _] & Hrq).
    apply (inv_fetches w I) in Hrq. lia.
  - apply (inv_settled w I) in Hin. lia.
Qed.

Lemma inv_handleSubmit t0 t1 t2 t3 w :
  Inv w -> Inv (handleSubmit t0 t1 t2 t3 w).
Proof.
  intros I. unfold handleSubmit.
  destruct (negb (truthy (trim (st_query (ui w))))); [exact I|].
  split; simpl.
  - intros rq [Hin|Hin]%in_app_or.
    + apply (inv_fetches w I) in Hin. lia.
    + simpl in Hin.
      repeat (destruct Hin as [<-|Hin]; [simpl; lia|]). destruct Hin.
  - intros _. eexists. reflexivity.
  - intros r [= <-]. reflexivity.
  - rewrite map_app, <- app_assoc.
    rewrite Permutation_app_swap_app. simpl.
    pose proof (key_fresh w) as Hf.
    assert (Hn := inv_once w I).
    repeat (apply NoDup_cons_2;
            [ rewrite list_elem_of_In; simpl;
              intros Hin;
              repeat (destruct Hin as [[=]|Hin]);
              exact (Hf _ I Hin) |]).
    exact Hn.
  - intros g i Hin. apply (inv_settled w I) in Hin. lia.
  - rewrite (inv_history w I), take_take. reflexivity.
Qed.

Lemma lookup_In {A} (l : list A) k x : l !! k = Some x -> In x l.
Proof. intros Hk. apply list_elem_of_In. eapply list_elem_of_lookup_2, Hk. Qed.

Lemma delete_In {A} (l : list A) k x : In x (delete k l) -> In x l.
Proof.
  rewrite <- !list_elem_of_In. apply list_elem_of_delete_inv.
Qed.

Lemma inv_settle k outcome w w' :
  Inv w -> settle k outcome w = Some w' -> Inv w'.
Proof.
  intros I (rq & res & Hk & Hu & ->)%settle_Some.
  pose proof (lookup_In _ _ _ Hk) as Hrq.
  pose proof (inv_fetches w I rq Hrq) as [Hsub Hidx].
  assert (Hres : st_results
            ((if allSettled (submission rq) (delete k (fetches w))
              then setLoading false else id)
               (setResults (fun _ => res) (ui w))) = res)
    by now destruct (allSettled _ _).
  assert (Hhis : st_history
            ((if allSettled (submission rq) (delete k (fetches w))
              then setLoading false else id)
               (setResults (fun _ => res) (ui w))) = st_history (ui w))
    by now destruct (allSettled _ _).
  split; simpl; rewrite ?Hres, ?Hhis.
  - intros rq' Hin%delete_In. now apply (inv_fetches w I).
  - intros Hpos. destruct (inv_results w I Hpos) as [p Hp].
    unfold updates in Hu. rewrite Hp in Hu.
    destruct Hu as (slot & _ & ->). eauto.
  - intros r ->. unfold updates in Hu.
    destruct (st_results (ui w)) as [p|] eqn:Hp; [|discriminate].
    destruct Hu as (slot & _ & [= ->]). simpl.
    rewrite length_insert. now apply (inv_slots w I).
  - rewrite <- Permutation_middle.
    pose proof (inv_once w I) as Hn.
    rewrite (Permutation_map key (delete_Permutation _ _ _ Hk)) in Hn.
    exact Hn.
  - intros g i [[= <- <-]|Hin]; [exact Hsub|].
    now apply (inv_settled w I g i).
  - apply (inv_history w I).
Qed.

(** A turn that leaves the requests and the history alone, and the
    result set up to its analysis. *)
Lemma inv_frame w w' :
  fetches w' = fetches w -> submissions w' = submissions w ->
  settled w' = settled w -> submitted w' = submitted w ->
  st_history (ui w') = st_history (ui w) ->
  fmap responses (st_results (ui w')) = fmap responses (st_results (ui w)) ->
  Inv w -> Inv w'.
Proof.
  intros Hf Hs Hd Hm Hh Hr I.
  split; rewrite ?Hf, ?Hs, ?Hd, ?Hm, ?Hh; try apply I.
  - intros Hpos. destruct (inv_results w I Hpos) as [p Hp].
    rewrite Hp in Hr. destruct (st_results (ui w')); [eauto | discriminate].
  - intros r Hr'. rewrite Hr' in Hr.
    destruct (st_results (ui w)) as [p|] eqn:Hp; [|discriminate].
    injection Hr as ->. now apply (inv_slots w I).
Qed.

Lemma requestLocation_results g s :
  st_results (requestLocation g s) = st_results s /\
  st_history (requestLocation g s) = st_history s.
Proof. destruct g as [| |lat lon [a|]]; split; reflexivity. Qed.

Lemma inv_step w e w' : Inv w -> step w e = Some w' -> Inv w'.
Proof.
  intros I.
  destruct e as [g|text|t0 t1 t2 t3|k outcome| |k outcome|open]; simpl.
  - destruct (locating w); [|discriminate]. intros [= <-].
    destruct (requestLocation_results g (ui w)) as [Hr Hh].
    apply (inv_frame w); simpl; try reflexivity; try assumption.
    now rewrite Hr.
  - intros [= <-]. now apply (inv_frame w).
  - intros [= <-]. now apply inv_handleSubmit.
  - now apply inv_settle.
  - intros [= <-]. unfold handleAnalyze.
    destruct (st_results (ui w)) eqn:Hr; [|exact I].
    apply (inv_frame w); simpl; try reflexivity; assumption.
  - unfold analyzeSettle. destruct (analyses w !! k); [|discriminate].
    simpl. intros [= <-].
    apply (inv_frame w); simpl; try assumption;
      destruct outcome; simpl; try reflexivity.
    now destruct (st_results (ui w)).
  - intros [= <-]. now apply (inv_frame w).
Qed.

Lemma inv_run trace : forall w w', Inv w -> run w trace = Some w' -> Inv w'.
Proof.
  induction trace as [|e trace IH]; simpl; intros w w' I.
  - now intros [= <-].
  - destruct (step w e) as [w1|] eqn:E; [|discriminate]. simpl.
    apply IH. now apply (inv_step w e).
Qed.

Lemma reachable_inv w : reachable w -> Inv w.
Proof. intros [trace Ht]. exact (inv_run trace _ _ inv_initial Ht). Qed.

Lemma reachable_after trace w :
  run initialWorld trace = Some w -> reachable w.
Proof. intros Hr. now exists trace. Qed.

Lemma reachable_step w e w' :
  reachable w -> step w e = Some w' -> reachable w'.
Proof.
  intros [trace Ht] Hs. exists (trace ++ [e])%list.
  revert Ht. generalize initialWorld.
  induction trace as [|e' trace IH]; simpl; intros w0.
  - intros [= ->]. now rewrite Hs.
  - destruct (step w0 e'); [|discriminate]. simpl. apply IH.
Qed.

(** The history variables record what their names say: [submitted] grows
    by the query of an accepted submission and by nothing else, [settled]
    by the request whose continuation runs and by nothing else. *)
Lemma submitted_step w e w' :
  step w e = Some w' ->
  submitted w' = submitted w \/
  (exists t0 t1 t2 t3, e = Submitted t0 t1 t2 t3 /\
     trim (st_query (ui w)) <> "" /\
     submitted w' = st_query (ui w) :: submitted w).
Proof.
  destruct e as [g|text|t0 t1 t2 t3|k outcome| |k outcome|open]; simpl.
  - destruct (locating w); [|discriminate]. intros [= <-]. now left.
  - intros [= <-]. now left.
  - intros [= <-]. unfold handleSubmit.
    destruct (trim (st_query (ui w))) eqn:E; simpl; [now left|].
    right. exists t0, t1, t2, t3. repeat split. discriminate.
  - intros (rq & res & _ & _ & ->)%settle_Some. now left.
  - intros [= <-]. unfold handleAnalyze.
    destruct (st_results (ui w)); now left.
  - unfold analyzeSettle. destruct (analyses w !! k); [|discriminate].
    simpl. intros [= <-]. now left.
  - intros [= <-]. now left.
Qed.

Lemma settled_step w e w' :
  step w e = Some w' ->
  settled w' = settled w \/
  (exists k outcome rq, e = Settled k outcome /\
     fetches w !! k = Some rq /\ settled w' = key rq :: settled w).
Proof.
  destruct e as [g|text|t0 t1 t2 t3|k outcome| |k outcome|open]; simpl.
  - destruct (locating w); [|discriminate]. intros [= <-]. now left.
  - intros [= <-]. now left.
  - intros [= <-]. unfold handleSubmit.
    destruct (negb (truthy (trim (st_query (ui w))))); now left.
  - intros (rq & res & Hk & _ & ->)%settle_Some.
    right. now exists k, outcome, rq.
  - intros [= <-]. unfold handleAnalyze.
    destruct (st_results (ui w)); now left.
  - unfold analyzeSettle. destruct (analyses w !! k); [|discriminate].
    simpl. intros [= <-]. now left.
  - intros [= <-]. now left.
Qed.

(** The slot a request in flight writes to exists: its continuation can
    run, whatever the outcome. *)
Lemma settle_progress w k rq outcome :
  Inv w -> fetches w !! k = Some rq ->
  exists p slot res,
    st_results (ui w) = Some p /\
    responses p !! index rq = Some slot /\
    updates (index rq) outcome (st_results (ui w)) res.
Proof.
  intros I Hk. pose proof (lookup_In _ _ _ Hk) as Hrq.
  destruct (inv_fetches w I rq Hrq) as [Hsub Hidx].
  destruct (inv_results w I ltac:(lia)) as [p Hp].
  pose proof (inv_slots w I p Hp) as Hlen.
  destruct (lookup_lt_is_Some_2 (responses p) (index rq) ltac:(lia))
    as [slot Hs].
  exists p, slot. eexists. split; [exact Hp|]. split; [exact Hs|].
  unfold updates. rewrite Hp. exists slot. split; [exact Hs | reflexivity].
Qed.

End Runs.

(** ** Submitting a query *)

Section Submission.

Context `{Host}.

Lemma handleSubmit_blank t0 t1 t2 t3 w :
  allWhiteSpace (st_query (ui w)) = true -> handleSubmit t0 t1 t2 t3 w = w.
Proof.
  intros Hq. unfold handleSubmit. now rewrite truthy_trim, Hq.
Qed.

Lemma handleSubmit_accepted t0 t1 t2 t3 w :
  trim (st_query (ui w)) <> "" ->
  let enhancedQuery :=
    enhanceQueryWithLocation (st_location (ui w)) (st_query (ui w)) in
  handleSubmit t0 t1 t2 t3 w =
  {| ui := setHistory (fun prev => st_query (ui w) :: take 19 prev)
             (setResults
                (fun _ => Some {| query := enhancedQuery;
                                  responses := initialResponses t0 t1 t2 t3;
                                  analysis := None |})
                (setLoading true (ui w)));
     fetches := fetches w ++
       map (fun '(endpoint, index) =>
              {| submission := submissions w; endpoint := endpoint;
                 index := index; body := enhancedQuery |}) modelEndpoints;
     analyses := analyses w; locating := locating w;
     submissions := S (submissions w);
     submitted := st_query (ui w) :: submitted w;
     settled := settled w |}.
Proof.
  intros Hq. unfold handleSubmit.
  now destruct (trim (st_query (ui w))).
Qed.

(** C1. Submitting a query that is not empty after trimming replaces the
    result set by one with exactly four slots, one per provider in the
    order gpt, grok, claude, gemini, each of them pending; the request
    for the provider at position [i] is the one that will write slot
    [i]. *)
Theorem C1_submit_initialises (w : World) (t0 t1 t2 t3 : number) :
  trim (st_query (ui w)) <> "" ->
  exists w' rs,
    step w (Submitted t0 t1 t2 t3) = Some w' /\
    st_results (ui w') =
      Some {| query := enhanceQueryWithLocation (st_location (ui w))
                         (st_query (ui w));
              responses := rs; analysis := None |} /\
    length rs = 4%nat /\
    map model rs = [ "GPT-5.2 Thinking (OpenAI) - Dec 2025";
                     "Grok 4.1 Thinking (xAI) - Dec 2025";
                     "Claude Opus 4.5 (Anthropic) - Dec 2025";
                     "Gemini 3 Pro (Google) - Dec 2025" ] /\
    Forall (fun r => isLoading r = true) rs /\
    map (fun rq => (endpoint rq, index rq))
        (drop (length (fetches w)) (fetches w')) =
      [ ("/api/query-individual/gpt", 0%nat);
        ("/api/query-individual/grok", 1%nat);
        ("/api/query-individual/claude", 2%nat);
        ("/api/query-individual/gemini", 3%nat) ].
Proof.
  intros Hq.
  exists (handleSubmit t0 t1 t2 t3 w), (initialResponses t0 t1 t2 t3).
  split; [reflexivity|].
  rewrite (handleSubmit_accepted t0 t1 t2 t3 w Hq). simpl.
  repeat split.
  - repeat constructor.
  - now rewrite drop_app_length.
Qed.

(** C8. Submitting a query that is empty or consists only of white space
    does nothing: no request is issued, the result set is not replaced
    and no history entry is added; the whole state stays as it was. *)
Theorem C8_blank_submit_is_noop (w : World) (t0 t1 t2 t3 : number) :
  Forall (fun c => isWhiteSpace c = true)
         (list_ascii_of_string (st_query (ui w))) ->
  step w (Submitted t0 t1 t2 t3) = Some w.
Proof.
  intros Hq%allWhiteSpace_Forall. simpl. now rewrite handleSubmit_blank.
Qed.

Lemma take_removelast {A} (l : list A) n :
  length l = S n -> take n l = removelast l.
Proof.
  intros Hl. rewrite removelast_firstn_len, Hl. reflexivity.
Qed.

(** C7. In every reachable state the history holds at most 20 entries,
    the most recent accepted query first (it is the latest 20 of all
    accepted queries); every accepted submission puts its query string in
    front and drops the oldest entry when there were 20 already. *)
Theorem C7_history_bounded (w : World) :
  reachable w ->
  (length (st_history (ui w)) <= 20)%nat /\
  st_history (ui w) = take 20 (submitted w) /\
  forall t0 t1 t2 t3,
    trim (st_query (ui w)) <> "" ->
    exists w',
      step w (Submitted t0 t1 t2 t3) = Some w' /\
      submitted w' = st_query (ui w) :: submitted w /\
      st_history (ui w') = st_query (ui w) :: take 19 (st_history (ui w)) /\
      ((length (st_history (ui w)) < 20)%nat ->
         st_history (ui w') = st_query (ui w) :: st_history (ui w)) /\
      (length (st_history (ui w)) = 20%nat ->
         st_history (ui w') =
           st_query (ui w) :: removelast (st_history (ui w))).
Proof.
  intros I%reachable_inv. pose proof (inv_history w I) as Hh.
  split; [rewrite Hh, length_take; lia|]. split; [exact Hh|].
  intros t0 t1 t2 t3 Hq.
  exists (handleSubmit t0 t1 t2 t3 w). split; [reflexivity|].
  rewrite (handleSubmit_accepted t0 t1 t2 t3 w Hq). simpl. repeat split.
  - intros Hl. now rewrite take_ge by lia.
  - intros Hl. now rewrite (take_removelast _ 19 Hl).
Qed.

End Submission.

(** ** Provider requests settling *)

Section Settling.

Context `{Host}.

(** The continuation of any request in flight can run, and it replaces
    the slot at its index in the result set that is current when it
    runs. *)
Lemma settle_applies w k rq outcome :
  Inv w -> fetches w !! k = Some rq ->
  exists w' r slot,
    step w (Settled k outcome) = Some w' /\
    st_results (ui w) = Some r /\
    responses r !! index rq = Some slot /\
    st_results (ui w') =
      Some {| query := query r;
              responses :=
                <[ index rq := match outcome with
                               | Some data => loaded data
                               | None => failed slot
                               end ]> (responses r);
              analysis := analysis r |} /\
    fetches w' = delete k (fetches w) /\
    settled w' = key rq :: settled w /\
    st_history (ui w') = st_history (ui w).
Proof.
  intros I Hk.
  destruct (settle_progress w k rq outcome I Hk)
    as (p & slot & res & Hp & Hs & Hu).
  eexists _, p, slot. split.
  - simpl. apply settle_Some. exists rq, res. eauto.
  - unfold updates in Hu. rewrite Hp in Hu.
    destruct Hu as (slot' & Hs' & ->).
    assert (slot' = slot) as -> by congruence.
    repeat split; try assumption; simpl;
      now destruct (allSettled _ _).
Qed.

(** C2. When the request for a slot fails (its [fetch] or the parsing of
    the body throws), the continuation marks that slot as not pending
    with the error message, and leaves every other slot, the query and
    the analysis of the result set as they were; the sibling requests
    stay in flight. *)
Theorem C2_failure_is_local (w : World) (k : nat) (rq : Request) :
  reachable w -> fetches w !! k = Some rq ->
  exists w' r r' slot,
    step w (Settled k None) = Some w' /\
    st_results (ui w) = Some r /\
    st_results (ui w') = Some r' /\
    responses r !! index rq = Some slot /\
    responses r' !! index rq = Some (failed slot) /\
    isLoading (failed slot) = false /\
    error (failed slot) = Some "Failed to fetch response" /\
    (forall j, j <> index rq -> responses r' !! j = responses r !! j) /\
    length (responses r') = length (responses r) /\
    query r' = query r /\ analysis r' = analysis r /\
    fetches w' = delete k (fetches w).
Proof.
  intros I%reachable_inv Hk.
  destruct (settle_applies w k rq None I Hk)
    as (w' & r & slot & Hstep & Hr & Hs & Hr' & Hf & _).
  eexists w', r, _, slot. split; [exact Hstep|]. split; [exact Hr|].
  split; [exact Hr'|]. simpl. split; [exact Hs|].
  split; [apply list_lookup_insert_eq; eapply lookup_lt_Some, Hs|].
  repeat split; try assumption.
  - intros j Hj. now apply list_lookup_insert_ne.
  - apply length_insert.
Qed.

(** C4, in the form that holds of the code.  The result set keeps its four slots through every
    settling of a provider request.  A failure keeps the label of every
    slot; a success puts the label of the response body into the slot it
    writes and keeps the labels of the others.  The continuation of a
    request runs at most once for its submission and slot. *)
Theorem C4_slots_fixed (w : World) (k : nat) (rq : Request)
    (outcome : option LLMResponse) :
  reachable w -> fetches w !! k = Some rq ->
  exists w' r r',
    step w (Settled k outcome) = Some w' /\
    st_results (ui w) = Some r /\
    st_results (ui w') = Some r' /\
    length (responses r) = 4%nat /\ length (responses r') = 4%nat /\
    (forall j, j <> index rq ->
       model <$> responses r' !! j = model <$> responses r !! j) /\
    (outcome = None ->
       forall j, model <$> responses r' !! j = model <$> responses r !! j) /\
    (forall data, outcome = Some data ->
       model <$> responses r' !! index rq = Some (model data)) /\
    ~ In (key rq) (settled w) /\
    settled w' = key rq :: settled w /\
    NoDup (settled w').
Proof.
  intros Hw Hk. pose proof (reachable_inv w Hw) as I.
  destruct (settle_applies w k rq outcome I Hk)
    as (w' & r & slot & Hstep & Hr & Hs & Hr' & Hf & Hd & _).
  pose proof (reachable_inv w' (reachable_step w _ w' Hw Hstep)) as I'.
  pose proof (lookup_lt_Some _ _ _ Hs) as Hi.
  eexists w', r, _. split; [exact Hstep|]. split; [exact Hr|].
  split; [exact Hr'|]. simpl.
  split; [apply (inv_slots w I r Hr)|].
  split; [rewrite length_insert; apply (inv_slots w I r Hr)|].
  split; [intros j Hj; now rewrite list_lookup_insert_ne|].
  split.
  { intros -> j. destruct (decide (j = index rq)) as [->|Hj].
    - now rewrite list_lookup_insert_eq, Hs.
    - now rewrite list_lookup_insert_ne. }
  split; [intros data ->; now rewrite list_lookup_insert_eq|].
  split.
  { pose proof (inv_once w I) as Hn.
    rewrite (Permutation_map key (delete_Permutation _ _ _ Hk)) in Hn.
    simpl in Hn. apply NoDup_cons_1_1 in Hn. intros Hin. apply Hn.
    apply list_elem_of_In, in_or_app. now right. }
  split; [exact Hd|].
  pose proof (inv_once w' I') as Hn. now apply NoDup_app in Hn.
Qed.

(** C5. The continuation of a request that an earlier submission started
    still runs after a later submission has replaced the result set, and
    writes its slot, at the index it captured, into the result set that
    is current then: nothing compares the submission of the request with
    the current one. *)
Theorem C5_stale_continuation_applies (w : World) (k : nat) (rq : Request)
    (outcome : option LLMResponse) :
  reachable w -> fetches w !! k = Some rq ->
  (submission rq + 1 < submissions w)%nat ->
  exists w' r slot,
    step w (Settled k outcome) = Some w' /\
    st_results (ui w) = Some r /\
    responses r !! index rq = Some slot /\
    st_results (ui w') =
      Some {| query := query r;
              responses :=
                <[ index rq := match outcome with
                               | Some data => loaded data
                               | None => failed slot
                               end ]> (responses r);
              analysis := analysis r |}.
Proof.
  intros I%reachable_inv Hk _.
  destruct (settle_applies w k rq outcome I Hk)
    as (w' & r & slot & Hstep & Hr & Hs & Hr' & _).
  now exists w', r, slot.
Qed.

End Settling.

(** ** The analysis *)

Section Analysis.

Context `{Host}.


(** C9, in the form that holds of the code.  When the analysis request
    throws ([fetch] rejects or the body is not JSON), the only change to
    the state is that the analysis is no longer marked as running: the
    result set is as before, without an analysis or an error message
    added.  An answer whose body parses is treated alike whatever its
    status: the analysis of the result set becomes the [analysis] member of
    the body, and is removed when the body has none.  In both cases the
    provider requests are untouched and the button that starts the
    analysis is rendered as before and not disabled. *)
Theorem C9_analysis_settles (w w' : World) (k : nat) (ans : Answer) :
  step w (AnalyzeSettled k (outcomeOf ans)) = Some w' ->
  (ans = Threw ->
     ui w' = setAnalyzing false (ui w) /\
     st_results (ui w') = st_results (ui w)) /\
  (forall ok a, ans = Answered ok a ->
     ui w' = setAnalyzing false (setResults (fmap (withAnalysis a)) (ui w)) /\
     st_results (ui w') = withAnalysis a <$> st_results (ui w)) /\
  fetches w' = fetches w /\
  analyzeShown (ui w') = analyzeShown (ui w) /\
  analyzeDisabled (ui w') = false.
Proof.
  simpl. unfold analyzeSettle.
  destruct (analyses w !! k); [|discriminate].
  simpl. intros [= <-]. simpl.
  split; [intros ->; now split|].
  split; [intros ok text ->; now split|].
  split; [reflexivity|]. split; [|reflexivity].
  destruct ans as [|ok text]; simpl; [reflexivity|].
  unfold analyzeShown. simpl. now destruct (st_results (ui w)).
Qed.

End Analysis.

(** ** The properties at sample inputs *)

Section Samples.

Import Sample.

#[local] Existing Instance host.

Example enhance_paris :
  enhanceQueryWithLocation (Some paris) "weather tomorrow"
  = "weather tomorrow in Paris, France".
Proof. reflexivity. Qed.

Example enhance_coordinates :
  enhanceQueryWithLocation (Some unnamed) "weather tomorrow"
  = "weather tomorrow at coordinates 48.86, 2.35".
Proof. vm_compute. reflexivity. Qed.

Example enhance_joke :
  enhanceQueryWithLocation (Some paris) "tell me a joke" = "tell me a joke".
Proof. reflexivity. Qed.

Example enhance_no_location :
  enhanceQueryWithLocation None "weather" = "weather".
Proof. reflexivity. Qed.

Example enhance_upper_case :
  enhanceQueryWithLocation (Some paris) "Restaurants NEAR ME"
  = "Restaurants NEAR ME in Paris, France".
Proof. reflexivity. Qed.

(** A tie goes to the larger number of hundredths, and a negative number
    that rounds to zero keeps its sign. *)
Example toFixed_tie : toFixed 2 (Number 1 (-3)) = "0.13".
Proof. vm_compute. reflexivity. Qed.

Example toFixed_negative_zero :
  toFixed 2 (Number (-1152921504606847) (-60)) = "-0.00".
Proof. vm_compute. reflexivity. Qed.

Example trim_sample : trim "  near  me " = "near  me".
Proof. reflexivity. Qed.

End Samples.

(** ** The theorems applied *)

Lemma C1_submit_initialises_applied :
  exists w' rs,
    step (H := Sample.host) (Sample.after [Typed "first"])
      (Submitted Sample.now Sample.now Sample.now Sample.now) = Some w' /\
    st_results (ui w') =
      Some {| query := "first"; responses := rs; analysis := None |} /\
    length rs = 4%nat /\
    Forall (fun r => isLoading r = true) rs.
Proof.
  destruct (@C1_submit_initialises Sample.host (Sample.after [Typed "first"])
              Sample.now Sample.now Sample.now Sample.now)
    as (w' & rs & Hs & Hr & Hl & _ & Hp & _).
  - vm_compute. discriminate.
  - exists w', rs. repeat split; assumption.
Defined.

Lemma C2_failure_is_local_applied :
  exists w' r',
    step (H := Sample.host) (Sample.after Sample.oneSubmission)
      (Settled 1 None) = Some w' /\
    st_results (ui w') = Some r' /\
    error <$> responses r' !! 1%nat = Some (Some "Failed to fetch response") /\
    isLoading <$> responses r' !! 1%nat = Some false /\
    isLoading <$> responses r' !! 0%nat = Some true /\
    length (fetches w') = 3%nat.
Proof.
  destruct (@C2_failure_is_local Sample.host
              (Sample.after Sample.oneSubmission) 1
              {| submission := 0; endpoint := "/api/query-individual/grok";
                 index := 1; body := "first" |})
    as (w' & r & r' & slot & Hs & Hr & Hr' & Hl & Hl' & Hp & He & Ho & _
        & _ & _ & Hf).
  - apply (reachable_after Sample.oneSubmission). reflexivity.
  - reflexivity.
  - exists w', r'. split; [exact Hs|]. split; [exact Hr'|].
    simpl in Hl'. rewrite Hl'. simpl.
    rewrite (Ho 0%nat) by discriminate.
    injection Hr as <-. rewrite Hf. repeat split.
Defined.

Lemma C3_enrichment_rule_applied :
  enhanceQueryWithLocation (H := Sample.host) (Some Sample.paris)
    "Weather tomorrow" = "Weather tomorrow in Paris, France" /\
  exists lat lon,
    Spec.roundedTo2 Sample.lat lat /\ Spec.roundedTo2 Sample.lon lon /\
    enhanceQueryWithLocation (H := Sample.host) (Some Sample.unnamed)
      "Weather tomorrow" = "Weather tomorrow at coordinates " ++ lat ++ ", " ++ lon.
Proof.
  assert (Hq : Spec.localityRelevant "Weather tomorrow").
  { exists "weather". split; [now left|].
    exists "", "Weather", " tomorrow". split; reflexivity. }
  split.
  - destruct (proj2 (@C3_enrichment_rule Sample.host (Some Sample.paris)
                       "Weather tomorrow") Sample.paris eq_refl Hq)
      as [Hnamed _].
    apply (Hnamed "Paris" "France"). repeat split; discriminate.
  - destruct (proj2 (@C3_enrichment_rule Sample.host (Some Sample.unnamed)
                       "Weather tomorrow") Sample.unnamed eq_refl Hq)
      as [_ Hcoordinates].
    apply Hcoordinates.
    + intros c k (Hc & _). discriminate.
    + reflexivity.
    + reflexivity.
Defined.

Lemma C4_slots_fixed_applied :
  exists w' r',
    step (H := Sample.host) (Sample.after Sample.oneSubmission)
      (Settled 0 (Some Sample.answer)) = Some w' /\
    st_results (ui w') = Some r' /\
    length (responses r') = 4%nat /\
    model <$> responses r' !! 0%nat = Some "gpt-5.2" /\
    model <$> responses r' !! 1%nat
      = Some "Grok 4.1 Thinking (xAI) - Dec 2025" /\
    settled w' = [(0%nat, 0%nat)].
Proof.
  destruct (@C4_slots_fixed Sample.host
              (Sample.after Sample.oneSubmission) 0
              {| submission := 0; endpoint := "/api/query-individual/gpt";
                 index := 0; body := "first" |} (Some Sample.answer))
    as (w' & r & r' & Hs & Hr & Hr' & _ & Hl & Ho & _ & Hd & _ & Hk & _).
  - apply (reachable_after Sample.oneSubmission). reflexivity.
  - reflexivity.
  - exists w', r'. split; [exact Hs|]. split; [exact Hr'|].
    split; [exact Hl|]. split; [exact (Hd _ eq_refl)|].
    split; [|exact Hk].
    rewrite (Ho 1%nat) by discriminate. now injection Hr as <-.
Defined.

(** C4 as stated fails: a response body carries its own label, and a
    successful request puts it into the slot in place of the label the slot
    had while pending. *)
Lemma C4_labels_change :
  ~ (forall w k rq data w' r r',
       reachable (H := Sample.host) w -> fetches w !! k = Some rq ->
       step (H := Sample.host) w (Settled k (Some data)) = Some w' ->
       st_results (ui w) = Some r -> st_results (ui w') = Some r' ->
       forall j, model <$> responses r' !! j = model <$> responses r !! j).
Proof.
  intros Hclaim.
  specialize (Hclaim (Sample.after Sample.oneSubmission) 0%nat _
                Sample.answer _ _ _
                (reachable_after Sample.oneSubmission _ eq_refl)
                eq_refl eq_refl eq_refl eq_refl 0%nat).
  discriminate Hclaim.
Qed.

Lemma C5_stale_continuation_applies_applied :
  exists w' r',
    step (H := Sample.host) (Sample.after Sample.twoSubmissions)
      (Settled 0 (Some Sample.answer)) = Some w' /\
    st_results (ui w') = Some r' /\
    query r' = "second" /\
    responses r' !! 0%nat = Some (loaded Sample.answer).
Proof.
  destruct (@C5_stale_continuation_applies Sample.host
              (Sample.after Sample.twoSubmissions) 0
              {| submission := 0; endpoint := "/api/query-individual/gpt";
                 index := 0; body := "first" |} (Some Sample.answer))
    as (w' & r & slot & Hs & Hr & Hl & Hr').
  - apply (reachable_after Sample.twoSubmissions). reflexivity.
  - reflexivity.
  - simpl. lia.
  - eexists w', _. split; [exact Hs|]. split; [exact Hr'|].
    injection Hr as <-. split; reflexivity.
Defined.


Lemma C7_history_bounded_applied :
  exists w',
    step (H := Sample.host)
      (Sample.after (Sample.oneSubmission ++ [Typed "second"]))
      (Submitted Sample.now Sample.now Sample.now Sample.now) = Some w' /\
    st_history (ui w') = ["second"; "first"].
Proof.
  destruct (@C7_history_bounded Sample.host
              (Sample.after (Sample.oneSubmission ++ [Typed "second"]))
              (reachable_after (Sample.oneSubmission ++ [Typed "second"])
                 _ eq_refl))
    as (_ & _ & Hsubmit).
  destruct (Hsubmit Sample.now Sample.now Sample.now Sample.now)
    as (w' & Hs & _ & Hh & _).
  - vm_compute. discriminate.
  - exists w'. split; [exact Hs | exact Hh].
Defined.

Lemma C8_blank_submit_is_noop_applied :
  step (H := Sample.host) (Sample.after [Typed "   "])
    (Submitted Sample.now Sample.now Sample.now Sample.now)
  = Some (Sample.after [Typed "   "]).
Proof.
  apply (@C8_blank_submit_is_noop Sample.host).
  repeat constructor.
Defined.

Lemma C9_analysis_settles_applied :
  st_results (ui (Sample.after (Sample.analysing ++ [AnalyzeSettled 0 None])))
  = st_results (ui (Sample.after Sample.analysing)) /\
  analyzeShown
    (ui (Sample.after (Sample.analysing ++ [AnalyzeSettled 0 None]))) = true /\
  analyzeDisabled
    (ui (Sample.after (Sample.analysing ++ [AnalyzeSettled 0 None]))) = false.
Proof.
  assert (Hstep : step (H := Sample.host) (Sample.after Sample.analysing)
                    (AnalyzeSettled 0 (outcomeOf Threw))
                  = Some (Sample.after
                            (Sample.analysing ++ [AnalyzeSettled 0 None])))
    by (vm_compute; reflexivity).
  destruct (@C9_analysis_settles Sample.host _ _ 0 Threw Hstep)
    as (Hthrew & _ & _ & Hs & Hd).
  destruct (Hthrew eq_refl) as [_ Hr].
  split; [exact Hr|]. split; [|exact Hd].
  rewrite Hs. vm_compute. reflexivity.
Defined.

(** C9 as stated fails: the page does not test the status of the answer,
    so an error answer whose body is JSON without an [analysis] member
    runs the updater of the success path and removes the analysis the
    result set had; the run uses only what the page renders as enabled. *)
Lemma C9_error_answer_changes_results :
  ~ (forall w k ans w',
       uiReachable (H := Sample.host) w -> failedAnswer ans = true ->
       step (H := Sample.host) w (AnalyzeSettled k (outcomeOf ans)) = Some w' ->
       st_results (ui w') = st_results (ui w)).
Proof.
  intros Hclaim.
  assert (Hw : uiReachable (H := Sample.host)
                 (Scenario.afterUi Scenario.analysedTwice))
    by (exists Scenario.analysedTwice; vm_compute; reflexivity).
  assert (Hstep : step (H := Sample.host)
                    (Scenario.afterUi Scenario.analysedTwice)
                    (AnalyzeSettled 0 (outcomeOf (Answered false None)))
                  = Some (Scenario.afterUi
                            (Scenario.analysedTwice
                               ++ [AnalyzeSettled 0 (Some None)])))
    by (vm_compute; reflexivity).
  specialize (Hclaim _ 0%nat (Answered false None) _ Hw eq_refl Hstep).
  vm_compute in Hclaim. discriminate Hclaim.
Qed.

Lemma C10_place_name_needs_both_applied :
  enhanceQueryWithLocation (H := Sample.host) (Some Sample.cityOnly)
    "weather tomorrow" = "weather tomorrow at coordinates 48.86, 2.35".
Proof.
  apply (proj1 (@C10_place_name_needs_both Sample.host Sample.cityOnly
                  "weather tomorrow" eq_refl)).
  right. reflexivity.
Defined.

(** ** More about the runs *)

Section Flows.

Context `{Host}.

Lemma flow_initial : Flow initialWorld.
Proof.
  split; simpl; try discriminate; try reflexivity.
  - constructor.
  - intros _. now split.
  - split; [intros Hn; now contradict Hn | discriminate].
Qed.

Lemma In_delete_ne {A} (l : list A) k x0 x :
  l !! k = Some x0 -> In x l -> x <> x0 -> In x (delete k l).
Proof.
  intros Hk Hin Hne.
  apply (Permutation_in _ (delete_Permutation _ _ _ Hk)) in Hin.
  destruct Hin as [<-|Hin]; [contradiction | exact Hin].
Qed.

Lemma flow_handleSubmit t0 t1 t2 t3 w :
  Inv w -> Flow w -> Flow (handleSubmit t0 t1 t2 t3 w).
Proof.
  intros I F.
  destruct (trim (st_query (ui w))) as [|c q] eqn:E.
  { rewrite handleSubmit_blank; [exact F|]. now apply trim_empty. }
  assert (Hq : trim (st_query (ui w)) <> "") by now rewrite E.
  rewrite (handleSubmit_accepted t0 t1 t2 t3 w Hq).
  split; simpl.
  - constructor; [exact Hq | apply (flow_accepted w F)].
  - intros r i slot [= <-] Hi _. simpl in Hi.
    destruct i as [|[|[|[|i]]]]; try discriminate;
      match goal with |- exists rq, _ /\ _ /\ index rq = ?i =>
        refine (ex_intro _ {| submission := submissions w; endpoint := _;
                              index := i; body := _ |} _)
      end;
      (split; [apply in_or_app; right; simpl; eauto 6 | split; reflexivity]).
  - intros [_ Hnil]%app_eq_nil. discriminate.
  - intros rq r [Hin|Hin]%in_app_or Hs [= <-].
    + apply (inv_fetches w I) in Hin. lia.
    + simpl in Hin.
      repeat (destruct Hin as [<-|Hin]; [reflexivity|]). destruct Hin.
  - intros. lia.
  - apply (flow_locating w F).
  - apply (flow_granted w F).
Qed.

Lemma flow_settle k outcome w w' :
  Inv w -> Flow w -> settle k outcome w = Some w' -> Flow w'.
Proof.
  intros I F (rq0 & res & Hk & Hu & ->)%settle_Some.
  set (s' := (if allSettled (submission rq0) (delete k (fetches w))
              then setLoading false else id)
               (setResults (fun _ => res) (ui w))).
  assert (Hres : st_results s' = res)
    by (subst s'; now destruct (allSettled _ _)).
  assert (Hloc : st_location s' = st_location (ui w) /\
                 st_locationPermission s' = st_locationPermission (ui w))
    by (subst s'; now destruct (allSettled _ _)).
  destruct Hloc as [Hloc Hperm].
  split; simpl; fold s'; rewrite ?Hres, ?Hloc, ?Hperm.
  - apply (flow_accepted w F).
  - intros r i slot -> Hi Hl. unfold updates in Hu.
    destruct (st_results (ui w)) as [p|] eqn:Hp; [|discriminate].
    destruct Hu as (slot0 & Hs0 & [= ->]). simpl in Hi.
    destruct (decide (index rq0 = i)) as [<-|Hne].
    + rewrite list_lookup_insert_eq in Hi
        by (eapply lookup_lt_Some, Hs0).
      injection Hi as <-. destruct outcome; discriminate.
    + rewrite list_lookup_insert_ne in Hi by assumption.
      destruct (flow_pending w F p i slot Hp Hi Hl)
        as (rq & Hin & Hs & Hidx).
      exists rq. split; [|now split].
      apply (In_delete_ne _ _ rq0); [assumption..|]. congruence.
  - intros Hnil. subst s'. rewrite Hnil. reflexivity.
  - intros rq r Hin%delete_In Hs ->. unfold updates in Hu.
    destruct (st_results (ui w)) as [p|] eqn:Hp; [|discriminate].
    destruct Hu as (slot0 & _ & [= ->]). simpl.
    now apply (flow_body w F).
  - intros r ->. unfold updates in Hu.
    destruct (st_results (ui w)) as [p|] eqn:Hp; [|discriminate].
    now apply (flow_results w F p).
  - apply (flow_locating w F).
  - apply (flow_granted w F).
Qed.

(** A turn that leaves the requests, the loading flag and the location
    alone, and the result set up to its analysis. *)
Lemma flow_frame w w' :
  fetches w' = fetches w -> submissions w' = submissions w ->
  submitted w' = submitted w -> locating w' = locating w ->
  st_loading (ui w') = st_loading (ui w) ->
  st_location (ui w') = st_location (ui w) ->
  st_locationPermission (ui w') = st_locationPermission (ui w) ->
  (forall r', st_results (ui w') = Some r' ->
     exists r, st_results (ui w) = Some r /\
               responses r' = responses r /\ query r' = query r) ->
  Flow w -> Flow w'.
Proof.
  intros Hf Hs Hm Hl Hlo Hloc Hp Hr F.
  split; rewrite ?Hf, ?Hs, ?Hm, ?Hl, ?Hlo, ?Hloc, ?Hp; try apply F.
  - intros r' i slot (r & Hr' & Hresp & _)%Hr. rewrite Hresp.
    now apply (flow_pending w F).
  - intros rq r' Hin Hsub (r & Hr' & _ & ->)%Hr.
    now apply (flow_body w F).
  - intros r' (r & Hr' & _)%Hr. now apply (flow_results w F r).
Qed.

Lemma requestLocation_frame g s :
  st_results (requestLocation g s) = st_results s /\
  st_loading (requestLocation g s) = st_loading s /\
  st_history (requestLocation g s) = st_history s /\
  st_query (requestLocation g s) = st_query s /\
  st_analyzing (requestLocation g s) = st_analyzing s.
Proof. destruct g as [| |lat lon [a|]]; repeat split. Qed.

Lemma requestLocation_granted g s :
  st_location s = None -> st_locationPermission s = "prompt" ->
  (st_location (requestLocation g s) <> None <->
   st_locationPermission (requestLocation g s) = "granted").
Proof.
  intros Hl Hp. destruct g as [| |lat lon [a|]]; simpl; rewrite ?Hl, ?Hp;
    split; try discriminate; try reflexivity; try (intros Hn; now contradict Hn).
Qed.

Lemma flow_step w e w' : Inv w -> Flow w -> step w e = Some w' -> Flow w'.
Proof.
  intros I F.
  destruct e as [g|text|t0 t1 t2 t3|k outcome| |k outcome|open]; simpl.
  - destruct (locating w) eqn:Hl; [|discriminate]. intros [= <-].
    destruct (flow_locating w F Hl) as [Hloc Hperm].
    destruct (requestLocation_frame g (ui w)) as (Hr & Hlo & _).
    split; simpl; rewrite ?Hr, ?Hlo; try apply F; try discriminate.
    now apply requestLocation_granted.
  - intros [= <-]. apply (flow_frame w); try reflexivity; [|exact F].
    simpl. eauto.
  - intros [= <-]. now apply flow_handleSubmit.
  - now apply flow_settle.
  - intros [= <-]. unfold handleAnalyze.
    destruct (st_results (ui w)) eqn:Hr; [|exact F].
    apply (flow_frame w); try reflexivity; [|exact F].
    simpl. rewrite Hr. eauto.
  - unfold analyzeSettle. destruct (analyses w !! k); [|discriminate].
    simpl. intros [= <-].
    apply (flow_frame w); simpl; try exact F; try (now destruct outcome).
    destruct outcome as [text|]; simpl; [|eauto].
    destruct (st_results (ui w)) as [r|]; simpl; [|discriminate].
    intros r' [= <-]. eauto.
  - intros [= <-]. apply (flow_frame w); try reflexivity; [|exact F].
    simpl. eauto.
Qed.

Lemma flow_run trace :
  forall w w', Inv w -> Flow w -> run w trace = Some w' -> Inv w' /\ Flow w'.
Proof.
  induction trace as [|e trace IH]; simpl; intros w w' I F.
  - now intros [= <-].
  - destruct (step w e) as [w1|] eqn:E; [|discriminate]. simpl.
    apply IH; [now apply (inv_step w e) | now apply (flow_step w e)].
Qed.

Lemma reachable_flow w : reachable w -> Flow w.
Proof.
  intros [trace Ht].
  exact (proj2 (flow_run trace _ _ inv_initial flow_initial Ht)).
Qed.

Lemma run_app (t1 t2 : list Event) w :
  run w (t1 ++ t2)%list = w1 ← run w t1; run w1 t2.
Proof.
  revert w. induction t1 as [|e t1 IH]; intros w; simpl; [reflexivity|].
  destruct (step w e); simpl; [apply IH | reflexivity].
Qed.

Lemma reachable_run w trace w' :
  reachable w -> run w trace = Some w' -> reachable w'.
Proof.
  intros [t0 Ht0] Hr. exists (t0 ++ trace)%list.
  rewrite run_app, Ht0. exact Hr.
Qed.

End Flows.

(** ** Further properties of the page *)

Section Further.

Context `{Host}.

Lemma quiet_slots w :
  Flow w -> fetches w = [] ->
  forall r, st_results (ui w) = Some r ->
  Forall (fun slot => isLoading slot = false) (responses r).
Proof.
  intros F Hnil r Hr. apply Forall_lookup. intros i slot Hi.
  destruct (isLoading slot) eqn:Hl; [|reflexivity].
  destruct (flow_pending w F r i slot Hr Hi Hl) as (rq & Hin & _).
  rewrite Hnil in Hin. destruct Hin.
Qed.

Lemma settle_head w rq rest outcome :
  Inv w -> fetches w = rq :: rest ->
  exists w1, step w (Settled 0 outcome) = Some w1 /\
             fetches w1 = rest /\ submissions w1 = submissions w /\
             st_history (ui w1) = st_history (ui w).
Proof.
  intros I Hf.
  assert (Hk : fetches w !! 0%nat = Some rq) by now rewrite Hf.
  destruct (settle_progress w 0 rq outcome I Hk)
    as (p & slot & res & Hp & Hs & Hu).
  eexists. split; [simpl; apply settle_Some; exists rq, res; eauto|].
  simpl. rewrite Hf. repeat split. now destruct (allSettled _ _).
Qed.

(** X1. Every entry of the history is a query that was not blank when it
    was submitted. *)
Theorem X1_history_not_blank (w : World) :
  reachable w ->
  Forall (fun q => trim q <> "") (st_history (ui w)).
Proof.
  intros Hw. rewrite (inv_history w (reachable_inv w Hw)).
  apply Forall_take, (flow_accepted w (reachable_flow w Hw)).
Qed.

(** X2. From every reachable state the requests in flight can all be
    settled, one after the other and whatever their outcomes; then nothing
    is in flight, the page is no longer loading, no slot is pending, the
    analysis button is rendered once a query has been submitted, and the
    history is as it was. *)
Theorem X2_requests_run_to_completion (w : World)
    (outcomes : list (option LLMResponse)) :
  reachable w -> length outcomes = length (fetches w) ->
  exists w',
    run w (settleAll outcomes) = Some w' /\
    fetches w' = [] /\
    st_loading (ui w') = false /\
    (forall r, st_results (ui w') = Some r ->
       Forall (fun slot => isLoading slot = false) (responses r)) /\
    ((0 < submissions w)%nat -> analyzeShown (ui w') = true) /\
    st_history (ui w') = st_history (ui w).
Proof.
  revert w. induction outcomes as [|o outcomes IH]; intros w Hw Hlen.
  - pose proof (reachable_inv w Hw) as I.
    pose proof (reachable_flow w Hw) as F.
    assert (Hnil : fetches w = []) by (destruct (fetches w); [reflexivity | discriminate]).
    exists w. split; [reflexivity|]. split; [exact Hnil|].
    split; [now apply (flow_quiet w F)|].
    split; [now apply quiet_slots|]. split; [|reflexivity].
    intros Hpos. destruct (inv_results w I Hpos) as [r Hr].
    unfold analyzeShown, every. rewrite Hr. apply forallb_forall.
    intros slot Hin.
    pose proof (quiet_slots w F Hnil r Hr) as Hall.
    rewrite Forall_forall in Hall.
    now rewrite (Hall slot (proj2 (list_elem_of_In _ _) Hin)).
  - pose proof (reachable_inv w Hw) as I.
    destruct (fetches w) as [|rq rest] eqn:Hf; [discriminate|].
    destruct (settle_head w rq rest o I Hf) as (w1 & Hstep & Hf1 & Hs1 & Hh1).
    destruct (IH w1) as (w' & Hrun & Hnil & Hl & Hslots & Hshown & Hh).
    + exact (reachable_step w _ w1 Hw Hstep).
    + rewrite Hf1. simpl in Hlen. lia.
    + exists w'. split.
      { unfold settleAll in *. cbn [map run]. rewrite Hstep. exact Hrun. }
      rewrite Hs1 in Hshown. rewrite Hh1 in Hh. auto.
Qed.

Lemma endpoints_run trace :
  forall w w',
    (forall rq, In rq (fetches w) -> In (endpoint rq, index rq) modelEndpoints) ->
    run w trace = Some w' ->
    forall rq, In rq (fetches w') -> In (endpoint rq, index rq) modelEndpoints.
Proof.
  induction trace as [|e trace IH]; simpl; intros w w' Hw.
  - now intros [= <-].
  - destruct (step w e) as [w1|] eqn:E; [|discriminate]. simpl.
    apply IH. clear IH.
    destruct e as [g|text|t0 t1 t2 t3|k outcome| |k outcome|open];
      simpl in E.
    + destruct (locating w); [|discriminate]. now injection E as <-.
    + now injection E as <-.
    + injection E as <-. unfold handleSubmit.
      destruct (negb (truthy (trim (st_query (ui w))))); [exact Hw|].
      simpl. intros rq [Hin|Hin]%in_app_or; [now apply Hw|].
      simpl in Hin.
      repeat (destruct Hin as [<-|Hin]; [simpl; tauto|]). destruct Hin.
    + apply settle_Some in E as (rq0 & res & _ & _ & ->). simpl.
      intros rq Hin%delete_In. now apply Hw.
    + injection E as <-. unfold handleAnalyze.
      now destruct (st_results (ui w)).
    + unfold analyzeSettle in E. destruct (analyses w !! k); [|discriminate].
      now injection E as <-.
    + now injection E as <-.
Qed.

(** X3. In every reachable state, a request in flight is for one of the
    four providers and writes the slot of that provider; a request of the
    latest submission was sent with the query that heads the result
    set. *)
Theorem X3_requests_match_result_set (w : World) (rq : Request) :
  reachable w -> In rq (fetches w) ->
  In (endpoint rq, index rq) modelEndpoints /\
  (forall r, S (submission rq) = submissions w ->
     st_results (ui w) = Some r -> body rq = query r).
Proof.
  intros Hw Hin. split.
  - destruct Hw as [trace Ht].
    apply (endpoints_run trace initialWorld w); [intros ? []| |]; assumption.
  - intros r Hs Hr. now apply (flow_body w (reachable_flow w Hw)).
Qed.

Lemma located_step w e w' :
  step w e = Some w' -> locating w = false ->
  locating w' = false /\
  st_location (ui w') = st_location (ui w) /\
  st_locationPermission (ui w') = st_locationPermission (ui w).
Proof.
  intros E Hl.
  destruct e as [g|text|t0 t1 t2 t3|k outcome| |k outcome|open]; simpl in E.
  - rewrite Hl in E. discriminate.
  - now injection E as <-.
  - injection E as <-. unfold handleSubmit.
    now destruct (negb (truthy (trim (st_query (ui w))))).
  - apply settle_Some in E as (rq0 & res & _ & _ & ->). simpl.
    now destruct (allSettled _ _).
  - injection E as <-. unfold handleAnalyze.
    now destruct (st_results (ui w)).
  - unfold analyzeSettle in E. destruct (analyses w !! k); [|discriminate].
    injection E as <-. now destruct outcome.
  - now injection E as <-.
Qed.

(** X4. The location is determined once: after [requestLocation] has
    finished, no event changes the location or the permission; and a
    location is stored exactly when the permission is "granted". *)
Theorem X4_location_settled_once (w w' : World) (trace : list Event) :
  reachable w -> locating w = false -> run w trace = Some w' ->
  st_location (ui w') = st_location (ui w) /\
  st_locationPermission (ui w') = st_locationPermission (ui w) /\
  (st_location (ui w') <> None <->
   st_locationPermission (ui w') = "granted").
Proof.
  intros Hw Hl Hrun.
  assert (Hsame : st_location (ui w') = st_location (ui w) /\
                  st_locationPermission (ui w') = st_locationPermission (ui w)).
  { clear Hw. revert w Hl Hrun.
    induction trace as [|e trace IH]; simpl; intros w Hl.
    - now intros [= <-].
    - destruct (step w e) as [w1|] eqn:E; [|discriminate]. simpl.
      destruct (located_step w e w1 E Hl) as (Hl1 & Hloc & Hperm).
      intros Hrun. destruct (IH w1 Hl1 Hrun) as [-> ->]. now split. }
  destruct Hsame as [Hloc Hperm]. repeat split; try assumption;
    rewrite Hloc, Hperm; apply (flow_granted w (reachable_flow w Hw)).
Qed.

(** X5. As long as permission has not been granted (the request is still
    running, was denied, or geolocation is not supported), an accepted
    submission shows the query as typed and sends it unchanged to each of
    the four providers. *)
Theorem X5_no_permission_no_enrichment (w : World) (t0 t1 t2 t3 : number) :
  reachable w -> st_locationPermission (ui w) <> "granted" ->
  trim (st_query (ui w)) <> "" ->
  exists w',
    step w (Submitted t0 t1 t2 t3) = Some w' /\
    query <$> st_results (ui w') = Some (st_query (ui w)) /\
    map body (drop (length (fetches w)) (fetches w'))
      = replicate 4 (st_query (ui w)).
Proof.
  intros Hw Hperm Hq.
  assert (Hloc : st_location (ui w) = None).
  { destruct (st_location (ui w)) eqn:E; [|reflexivity].
    contradict Hperm. apply (flow_granted w (reachable_flow w Hw)).
    now rewrite E. }
  exists (handleSubmit t0 t1 t2 t3 w). split; [reflexivity|].
  rewrite (handleSubmit_accepted t0 t1 t2 t3 w Hq), Hloc. simpl.
  split; [reflexivity|]. now rewrite drop_app_length.
Qed.

(** X6. Once a position has arrived, a query that matches a keyword is
    enriched with the place name the reverse geocoding resolved (the first
    of city, town and village that is not empty, with a country that is not
    empty), and with the coordinates when the lookup failed or did not
    resolve such a name. *)
Theorem X6_place_name_resolution (s : HomeState) (lat lon : number)
    (geocoded : option (option Address)) (q : string) :
  shouldAddLocation q = true ->
  enhanceQueryWithLocation
    (st_location (requestLocation (GeoPosition lat lon geocoded) s)) q
  = match resolvedPlace geocoded with
    | Some (n, c) => q ++ " in " ++ n ++ ", " ++ c
    | None => q ++ " at coordinates " ++ toFixed 2 lat ++ ", "
                ++ toFixed 2 lon
    end.
Proof.
  intros Hq.
  destruct geocoded as [[[c t v k]|]|];
    cbn [requestLocation st_location setLocation setLocationPermission];
    rewrite (enhance_relevant _ q Hq); unfold locationString, resolvedPlace;
    try reflexivity.
  cbn [city country latitude longitude mbind option_bind
       addr_city addr_town addr_village addr_country firstPresent].
  unfold orElse.
  destruct c as [[|? ?]|], t as [[|? ?]|], v as [[|? ?]|], k as [[|? ?]|];
    reflexivity.
Qed.

(** X7. Enrichment only appends: the enriched query starts with the query
    as typed, and what is appended is empty exactly when there is no
    location or no keyword matches. *)
Theorem X7_enrichment_only_appends (location : option Location) (q : string) :
  exists suffix,
    enhanceQueryWithLocation location q = q ++ suffix /\
    (suffix = "" <-> location = None \/ shouldAddLocation q = false).
Proof.
  assert (Hnil : q = q ++ "")
    by (induction q as [|c q IH]; simpl; congruence).
  destruct location as [l|]; simpl.
  - destruct (shouldAddLocation q) eqn:E; simpl.
    + exists (" " ++ locationString l). split; [reflexivity|].
      split; [discriminate | intros [?|?]; discriminate].
    + exists "". split; [exact Hnil | tauto].
  - exists "". split; [exact Hnil | tauto].
Qed.

(** X8. An analysis request that is in flight when a new query is
    submitted is not dropped: when it succeeds, its text is attached to
    the result set of the new query, whose four slots are still pending.
    The page permits this run when it is not loading. *)
Theorem X8_analysis_outlives_submission (w : World) (k : nat)
    (areq : AnalyzeRequest) (a : option string) (t0 t1 t2 t3 : number) :
  analyses w !! k = Some areq ->
  st_loading (ui w) = false -> trim (st_query (ui w)) <> "" ->
  exists w',
    uiRun w [Submitted t0 t1 t2 t3; AnalyzeSettled k (Some a)] = Some w' /\
    st_results (ui w') =
      Some {| query := enhanceQueryWithLocation (st_location (ui w))
                         (st_query (ui w));
              responses := initialResponses t0 t1 t2 t3;
              analysis := a |} /\
    st_analyzing (ui w') = false.
Proof.
  intros Hk Hl Hq. cbn [uiRun permitted]. unfold submitDisabled.
  rewrite Hl. destruct (trim (st_query (ui w))) eqn:E; [contradiction|].
  cbn [truthy negb orb step mbind option_bind].
  assert (Hq' : trim (st_query (ui w)) <> "") by now rewrite E.
  rewrite (handleSubmit_accepted t0 t1 t2 t3 w Hq').
  unfold analyzeSettle. cbn [analyses]. rewrite Hk.
  eexists. split; [reflexivity|]. split; reflexivity.
Qed.

Lemma results_step w e w' :
  step w e = Some w' -> st_results (ui w) <> None ->
  st_results (ui w') <> None.
Proof.
  intros E Hr.
  destruct e as [g|text|t0 t1 t2 t3|k outcome| |k outcome|open]; simpl in E.
  - destruct (locating w); [|discriminate]. injection E as <-. simpl.
    now rewrite (proj1 (requestLocation_frame g (ui w))).
  - now injection E as <-.
  - injection E as <-. unfold handleSubmit.
    now destruct (negb (truthy (trim (st_query (ui w))))).
  - apply settle_Some in E as (rq0 & res & _ & Hu & ->).
    unfold updates in Hu.
    destruct (st_results (ui w)) as [p|]; [|contradiction].
    destruct Hu as (slot & _ & ->). now destruct (allSettled _ _).
  - injection E as <-. unfold handleAnalyze.
    destruct (st_results (ui w)) eqn:Hp; [simpl; now rewrite Hp | contradiction].
  - unfold analyzeSettle in E. destruct (analyses w !! k); [|discriminate].
    injection E as <-. destruct outcome; simpl; [|exact Hr].
    destruct (st_results (ui w)); [discriminate | contradiction].
  - now injection E as <-.
Qed.

(** X9. Nothing clears the result set: once a query has been accepted,
    every later state has a result set, so the welcome panel is never
    rendered again. *)
Theorem X9_results_never_cleared (w w' : World) (trace : list Event) :
  st_results (ui w) <> None -> run w trace = Some w' ->
  st_results (ui w') <> None /\ welcomeShown (ui w') = false.
Proof.
  intros Hr Hrun.
  assert (Hr' : st_results (ui w') <> None).
  { revert w Hr Hrun. induction trace as [|e trace IH]; simpl; intros w Hr.
    - now intros [= <-].
    - destruct (step w e) as [w1|] eqn:E; [|discriminate]. simpl.
      apply IH. now apply (results_step w e). }
  split; [exact Hr'|]. unfold welcomeShown.
  destruct (st_results (ui w')); [|contradiction].
  rewrite bool_decide_eq_true_2 by eauto. reflexivity.
Qed.

End Further.

(** ** Runs through the controls of the page *)

Section Controls.

Context `{Host}.

Lemma uiRun_run trace : forall w w', uiRun w trace = Some w' -> run w trace = Some w'.
Proof.
  induction trace as [|e trace IH]; simpl; intros w w'; [tauto|].
  destruct (permitted w e); [|discriminate].
  destruct (step w e); simpl; [apply IH | discriminate].
Qed.

Lemma uiReachable_reachable w : uiReachable w -> reachable w.
Proof. intros [trace Ht]. exists trace. now apply uiRun_run. Qed.

Lemma gated_initial : Gated initialWorld.
Proof.
  split; simpl; try (intros; contradiction); try lia.
  - split; [discriminate | intros Hn; now contradict Hn].
  - intros r i slot [=].
  - split; [discriminate | intros Hn; now contradict Hn].
Qed.

Lemma gated_frame w w' :
  fetches w' = fetches w -> analyses w' = analyses w ->
  submissions w' = submissions w ->
  st_loading (ui w') = st_loading (ui w) ->
  st_analyzing (ui w') = st_analyzing (ui w) ->
  fmap responses (st_results (ui w')) = fmap responses (st_results (ui w)) ->
  Gated w -> Gated w'.
Proof.
  intros Hf Ha Hs Hl Hz Hr G.
  split; rewrite ?Hf, ?Ha, ?Hs, ?Hl, ?Hz;
    [apply G | apply G | | apply G | apply G | apply G].
  intros r' i slot Hr' Hi. rewrite Hr' in Hr.
  destruct (st_results (ui w)) as [r|] eqn:E; [|discriminate].
  injection Hr as Hr. rewrite Hr in Hi. now apply (gated_pending w G r).
Qed.

Lemma allSettled_same g rest :
  (forall rq, In rq rest -> submission rq = g) ->
  allSettled g rest = match rest with [] => true | _ => false end.
Proof.
  destruct rest as [|rq rest]; [reflexivity|]. intros Hg.
  unfold allSettled, every. simpl.
  rewrite (Hg rq) by now left. now rewrite Nat.eqb_refl.
Qed.

Lemma no_fetches w : Gated w -> st_loading (ui w) = false -> fetches w = [].
Proof.
  intros G Hl. destruct (fetches w) eqn:E; [reflexivity|].
  assert (st_loading (ui w) = true)
    by (apply (gated_loading w G); rewrite E; discriminate).
  congruence.
Qed.

Lemma gated_handleSubmit t0 t1 t2 t3 w :
  Gated w -> permitted w (Submitted t0 t1 t2 t3) = true ->
  Gated (handleSubmit t0 t1 t2 t3 w).
Proof.
  intros G Hp. simpl in Hp. unfold submitDisabled in Hp.
  apply negb_true_iff, orb_false_iff in Hp as [Hl Hq].
  apply negb_false_iff in Hq.
  assert (Hq' : trim (st_query (ui w)) <> "")
    by (destruct (trim (st_query (ui w))); [discriminate | discriminate]).
  pose proof (no_fetches w G Hl) as Hnil.
  rewrite (handleSubmit_accepted t0 t1 t2 t3 w Hq'), Hnil.
  split; simpl; try apply G.
  - split; [discriminate | reflexivity].
  - intros rq Hin.
    repeat (destruct Hin as [<-|Hin]; [reflexivity|]). destruct Hin.
  - intros r i slot [= <-] Hi. simpl in Hi.
    destruct i as [|[|[|[|i]]]]; try discriminate; injection Hi as <-;
      (split; [intros _ | reflexivity]);
      match goal with |- exists rq, _ /\ index rq = ?i =>
        refine (ex_intro _ {| submission := submissions w; endpoint := _;
                              index := i; body := _ |} _)
      end; (split; [eauto 6 | reflexivity]).
Qed.

Lemma gated_settle k outcome w w' :
  Inv w -> Gated w -> settle k outcome w = Some w' -> Gated w'.
Proof.
  intros I G (rq0 & res & Hk & Hu & ->)%settle_Some.
  pose proof (lookup_In _ _ _ Hk) as Hin0.
  pose proof (delete_Permutation _ _ _ Hk) as Hperm.
  assert (Hsame : forall rq, In rq (delete k (fetches w)) ->
                             submission rq = submission rq0).
  { intros rq Hin%delete_In.
    pose proof (gated_latest w G rq Hin).
    pose proof (gated_latest w G rq0 Hin0). lia. }
  assert (Hfresh : forall rq, In rq (delete k (fetches w)) ->
                              index rq <> index rq0).
  { intros rq Hin Hidx.
    pose proof (inv_once w I) as Hn. apply NoDup_app in Hn as (Hn & _).
    rewrite (Permutation_map key Hperm) in Hn. simpl in Hn.
    apply NoDup_cons_1_1 in Hn. apply Hn, list_elem_of_In, in_map_iff.
    exists rq. split; [|exact Hin]. unfold key.
    now rewrite (Hsame rq Hin), Hidx. }
  rewrite (allSettled_same _ _ Hsame).
  set (rest := delete k (fetches w)) in *.
  assert (Hloading : st_loading (ui w) = true)
    by (apply (gated_loading w G); intros E; rewrite E in Hin0; destruct Hin0).
  split; cbn [ui fetches analyses submissions].
  - destruct rest; simpl; [split; [discriminate | intros Hn; now contradict Hn]|].
    split; [discriminate | intros _; exact Hloading].
  - intros rq Hin%delete_In. now apply (gated_latest w G).
  - assert (Hres : st_results
                     ((if match rest with [] => true | _ => false end
                       then setLoading false else id)
                        (setResults (fun _ => res) (ui w))) = res)
      by now destruct rest.
    rewrite Hres. intros r i slot -> Hi. unfold updates in Hu.
    destruct (st_results (ui w)) as [p|] eqn:Hp; [|discriminate].
    destruct Hu as (slot0 & Hs0 & [= ->]). simpl in Hi.
    destruct (decide (index rq0 = i)) as [<-|Hne].
    + rewrite list_lookup_insert_eq in Hi by (eapply lookup_lt_Some, Hs0).
      injection Hi as <-. split.
      * destruct outcome; discriminate.
      * intros (rq & Hin & Hidx). now apply Hfresh in Hin.
    + rewrite list_lookup_insert_ne in Hi by assumption.
      rewrite (gated_pending w G p i slot Hp Hi). split.
      * intros (rq & Hin & Hidx). exists rq. split; [|exact Hidx].
        apply (In_delete_ne _ _ rq0); [assumption..|]. congruence.
      * intros (rq & Hin%delete_In & Hidx). eauto.
  - assert (Hz : st_analyzing
                   ((if match rest with [] => true | _ => false end
                     then setLoading false else id)
                      (setResults (fun _ => res) (ui w)))
                 = st_analyzing (ui w))
      by now destruct rest.
    rewrite Hz. apply (gated_analyzing w G).
  - apply (gated_single w G).
  - apply (gated_bodies w G).
Qed.

Lemma gated_handleAnalyze w :
  Inv w -> Gated w -> permitted w AnalyzeClicked = true ->
  Gated (handleAnalyze w).
Proof.
  intros I G Hp. simpl in Hp. apply andb_prop in Hp as [Hshown Hz].
  unfold analyzeDisabled in Hz. apply negb_true_iff in Hz.
  unfold analyzeShown in Hshown. unfold handleAnalyze.
  destruct (st_results (ui w)) as [r|] eqn:Hr; [|discriminate].
  assert (Hnil : analyses w = []).
  { destruct (analyses w) eqn:E; [reflexivity|].
    assert (st_analyzing (ui w) = true)
      by (apply (gated_analyzing w G); rewrite E; discriminate).
    congruence. }
  split; simpl; rewrite ?Hnil, ?Hr; simpl.
  - apply (gated_loading w G).
  - apply (gated_latest w G).
  - intros r' i slot [= <-]. now apply (gated_pending w G).
  - split; [discriminate | reflexivity].
  - lia.
  - intros a [<-|[]]. simpl. split; [now apply (inv_slots w I)|].
    apply Forall_forall. intros slot Hin%list_elem_of_In.
    unfold every in Hshown. rewrite forallb_forall in Hshown.
    now apply negb_true_iff, Hshown.
Qed.

Lemma gated_analyzeSettle k outcome w w' :
  Gated w -> analyzeSettle k outcome w = Some w' -> Gated w'.
Proof.
  intros G. unfold analyzeSettle.
  destruct (analyses w !! k) as [a|] eqn:Hk; [|discriminate].
  simpl. intros [= <-].
  assert (Hnil : delete k (analyses w) = []).
  { pose proof (gated_single w G) as Hlen.
    pose proof (lookup_lt_Some _ _ _ Hk) as Hlt.
    destruct (analyses w) as [|a0 [|a1 l]]; simpl in *; try lia.
    now replace k with 0%nat by lia. }
  assert (Hresp : fmap responses
                    (st_results match outcome with
                                | Some t => setResults (fmap (withAnalysis t)) (ui w)
                                | None => ui w
                                end)
                  = fmap responses (st_results (ui w))).
  { destruct outcome; simpl; [|reflexivity].
    now destruct (st_results (ui w)). }
  split; simpl; rewrite ?Hnil.
  - replace (st_loading _) with (st_loading (ui w)) by now destruct outcome.
    apply (gated_loading w G).
  - apply (gated_latest w G).
  - intros r' i slot Hr' Hi. rewrite Hr' in Hresp.
    destruct (st_results (ui w)) as [r|] eqn:E; [|discriminate].
    injection Hresp as Hresp. rewrite Hresp in Hi.
    now apply (gated_pending w G r).
  - split; [discriminate | intros Hn; now contradict Hn].
  - simpl. lia.
  - intros a' [].
Qed.

Lemma gated_step w e w' :
  Inv w -> Gated w -> permitted w e = true -> step w e = Some w' ->
  Gated w'.
Proof.
  intros I G Hp.
  destruct e as [g|text|t0 t1 t2 t3|k outcome| |k outcome|open]; simpl.
  - destruct (locating w); [|discriminate]. intros [= <-].
    destruct (requestLocation_frame g (ui w)) as (Hr & Hl & _ & _ & Hz).
    apply (gated_frame w); simpl; try reflexivity; try assumption.
    now rewrite Hr.
  - intros [= <-]. now apply (gated_frame w).
  - intros [= <-]. now apply gated_handleSubmit.
  - now apply gated_settle.
  - intros [= <-]. now apply gated_handleAnalyze.
  - now apply gated_analyzeSettle.
  - intros [= <-]. now apply (gated_frame w).
Qed.

Lemma gated_run trace :
  forall w w', Inv w -> Gated w -> uiRun w trace = Some w' -> Gated w'.
Proof.
  induction trace as [|e trace IH]; simpl; intros w w' I G.
  - now intros [= <-].
  - destruct (permitted w e) eqn:Hp; [|discriminate].
    destruct (step w e) as [w1|] eqn:E; [|discriminate]. simpl.
    apply IH; [now apply (inv_step w e) | now apply (gated_step w e)].
Qed.

Lemma uiReachable_gated w : uiReachable w -> Gated w.
Proof.
  intros [trace Ht]. exact (gated_run trace _ _ inv_initial gated_initial Ht).
Qed.

Lemma uiReachable_after trace w :
  uiRun initialWorld trace = Some w -> uiReachable w.
Proof. intros Hr. now exists trace. Qed.

(** X10. In the runs the page permits no continuation is stale: a request
    in flight belongs to the latest submission, was sent with the query of
    the current result set, and the slot it will write is still
    pending. *)
Theorem X10_no_stale_continuation (w : World) (k : nat) (rq : Request) :
  uiReachable w -> fetches w !! k = Some rq ->
  S (submission rq) = submissions w /\
  exists r slot,
    st_results (ui w) = Some r /\ body rq = query r /\
    responses r !! index rq = Some slot /\ isLoading slot = true.
Proof.
  intros Hw Hk. pose proof (uiReachable_gated w Hw) as G.
  pose proof (uiReachable_reachable w Hw) as Hr.
  pose proof (reachable_inv w Hr) as I.
  pose proof (reachable_flow w Hr) as F.
  pose proof (lookup_In _ _ _ Hk) as Hin.
  pose proof (gated_latest w G rq Hin) as Hlatest.
  split; [exact Hlatest|].
  destruct (settle_progress w k rq None I Hk) as (r & slot & _ & Hp & Hs & _).
  exists r, slot. split; [exact Hp|].
  split; [now apply (flow_body w F)|]. split; [exact Hs|].
  apply (gated_pending w G r _ slot Hp Hs). eauto.
Qed.

(** X11. In the runs the page permits, the page is loading exactly while
    a provider request is in flight, and a slot is pending exactly while
    the request that writes it is in flight. *)
Theorem X11_progress_is_shown_exactly (w : World) :
  uiReachable w ->
  (st_loading (ui w) = true <-> fetches w <> []) /\
  (forall r i slot,
     st_results (ui w) = Some r -> responses r !! i = Some slot ->
     (isLoading slot = true <-> exists rq, In rq (fetches w) /\ index rq = i)).
Proof.
  intros G%uiReachable_gated.
  split; [apply (gated_loading w G) | apply (gated_pending w G)].
Qed.

(** X12. In the runs the page permits at most one analysis request is in
    flight, the analysis is marked as running exactly while it is, and the
    request was made for four responses none of which was pending. *)
Theorem X12_one_analysis_at_a_time (w : World) :
  uiReachable w ->
  (length (analyses w) <= 1)%nat /\
  (st_analyzing (ui w) = true <-> analyses w <> []) /\
  (forall a, In a (analyses w) ->
     length (areq_responses a) = 4%nat /\
     Forall (fun r => isLoading r = false) (areq_responses a)).
Proof.
  intros G%uiReachable_gated.
  split; [apply (gated_single w G)|].
  split; [apply (gated_analyzing w G) | apply (gated_bodies w G)].
Qed.

Lemma NoDup_indices (l : list Request) g :
  (forall rq, In rq l -> submission rq = g) ->
  NoDup (map key l) -> NoDup (map index l).
Proof.
  induction l as [|rq l IH]; simpl; intros Hg Hn; [constructor|].
  apply NoDup_cons in Hn as [Hnotin Hn].
  apply NoDup_cons. split; [|apply IH; auto].
  intros Hin. apply Hnotin.
  apply list_elem_of_In, in_map_iff in Hin as (rq' & Hidx & Hin).
  apply list_elem_of_In, in_map_iff. exists rq'. split; [|exact Hin].
  unfold key. rewrite Hidx, (Hg rq'), (Hg rq); auto.
Qed.

(** X15. In the runs the page permits there are never more than four
    provider requests in flight, and no two of them write the same
    slot. *)
Theorem X15_at_most_four_in_flight (w : World) :
  uiReachable w ->
  (length (fetches w) <= 4)%nat /\ NoDup (map index (fetches w)).
Proof.
  intros Hw. pose proof (uiReachable_gated w Hw) as G.
  pose proof (reachable_inv w (uiReachable_reachable w Hw)) as I.
  assert (Hn : NoDup (map index (fetches w))).
  { apply (NoDup_indices _ (pred (submissions w))).
    - intros rq Hin. pose proof (gated_latest w G rq Hin). lia.
    - pose proof (inv_once w I) as Hk. now apply NoDup_app in Hk. }
  split; [|exact Hn].
  rewrite <- (length_map index).
  change 4%nat with (length (seq 0 4)).
  apply submseteq_length, NoDup_submseteq; [exact Hn|].
  intros i (rq & <- & Hin)%list_elem_of_In%in_map_iff.
  destruct (inv_fetches w I rq Hin) as [_ Hlt].
  apply list_elem_of_In, in_seq. lia.
Qed.

End Controls.

(** ** The earlier version of the page *)

Section BatchFacts.

Lemma batch_inv_initial : Batch.Inv Batch.initialWorld.
Proof. split; simpl; try constructor; discriminate. Qed.

Lemma batch_inv_step w e w' :
  Batch.Inv w -> Batch.step w e = Some w' -> Batch.Inv w'.
Proof.
  intros I.
  destruct e as [text| |k outcome| |k outcome| |open]; simpl.
  - intros [= <-]. split; apply I.
  - intros [= <-]. unfold Batch.handleSubmit.
    destruct (trim (st_query (Batch.page w))) eqn:E; simpl; [exact I|].
    split; simpl; try apply I; [now intros|].
    apply Forall_app. split; [apply I|].
    constructor; [|constructor]. rewrite E. discriminate.
  - unfold Batch.querySettle.
    destruct (Batch.queries w !! k) as [q|] eqn:Hk; [|discriminate].
    simpl. intros [= <-].
    pose proof (Forall_lookup_1 _ _ _ _ (Batch.inv_queries w I) Hk) as Hq.
    destruct outcome as [data|]; split; simpl; try discriminate;
      try apply I; try (apply Forall_delete; apply I).
    + now rewrite (Batch.inv_history w I), take_take.
    + constructor; [exact Hq | apply I].
  - intros [= <-]. unfold Batch.handleAnalyze.
    destruct (st_results (Batch.page w)) eqn:Hr; [|exact I].
    split; simpl; apply I.
  - unfold Batch.analyzeSettle.
    destruct (Batch.pendingAnalyses w !! k); [|discriminate].
    simpl. intros [= <-].
    split; simpl; try (destruct outcome; apply I).
    destruct outcome; simpl; [|apply I].
    intros Hl. now rewrite (Batch.inv_loading w I Hl).
  - intros [= <-]. split; simpl; try apply I. reflexivity.
  - intros [= <-]. split; apply I.
Qed.

Lemma batch_reachable_inv w : Batch.reachable w -> Batch.Inv w.
Proof.
  intros [trace Ht]. revert Ht.
  generalize batch_inv_initial. generalize Batch.initialWorld.
  induction trace as [|e trace IH]; simpl; intros w0 I.
  - now intros [= <-].
  - destruct (Batch.step w0 e) as [w1|] eqn:E; [|discriminate]. simpl.
    apply IH. now apply (batch_inv_step w0 e).
Qed.

(** X13. In every reachable state of the earlier page: while it is
    loading there is no result set, so the search view is rendered; the
    history holds at most 20 entries, the queries whose request succeeded,
    latest first, none of them blank. *)
Theorem X13_batch_history_and_loading (w : Batch.World) :
  Batch.reachable w ->
  (st_loading (Batch.page w) = true ->
     st_results (Batch.page w) = None /\
     Batch.resultsShown (Batch.page w) = false) /\
  (length (st_history (Batch.page w)) <= 20)%nat /\
  st_history (Batch.page w) = take 20 (Batch.succeeded w) /\
  Forall (fun q => trim q <> "") (st_history (Batch.page w)).
Proof.
  intros I%batch_reachable_inv.
  pose proof (Batch.inv_history w I) as Hh. split.
  - intros Hl. pose proof (Batch.inv_loading w I Hl) as Hr.
    unfold Batch.resultsShown. rewrite Hr. split; [reflexivity|].
    apply bool_decide_eq_false_2. now intros [? [=]].
  - rewrite Hh, length_take. split; [lia|]. split; [reflexivity|].
    apply Forall_take, I.
Qed.

(** X14. In the earlier page a query enters the history when, and only
    when, its request succeeds: every other event leaves the history as it
    is, and a failed request changes nothing but the loading flag. *)
Theorem X14_batch_history_on_success (w w' : Batch.World) (e : Batch.Event) :
  Batch.step w e = Some w' ->
  (st_history (Batch.page w') = st_history (Batch.page w) /\
   (forall k, e = Batch.QuerySettled k None ->
      Batch.page w' = setLoading false (Batch.page w))) \/
  (exists k q data,
     e = Batch.QuerySettled k (Some data) /\
     Batch.queries w !! k = Some q /\
     st_history (Batch.page w')
       = q :: take 19 (st_history (Batch.page w)) /\
     st_results (Batch.page w') = Some data /\
     st_loading (Batch.page w') = false).
Proof.
  destruct e as [text| |k outcome| |k outcome| |open]; simpl.
  - intros [= <-]. left. split; [reflexivity | discriminate].
  - intros [= <-]. left. split; [|discriminate].
    unfold Batch.handleSubmit.
    now destruct (negb (truthy (trim (st_query (Batch.page w))))).
  - unfold Batch.querySettle.
    destruct (Batch.queries w !! k) as [q|] eqn:Hk; [|discriminate].
    simpl. intros [= <-]. destruct outcome as [data|].
    + right. exists k, q, data. repeat split; try reflexivity. exact Hk.
    + left. split; reflexivity.
  - intros [= <-]. left. split; [|discriminate].
    unfold Batch.handleAnalyze. now destruct (st_results (Batch.page w)).
  - unfold Batch.analyzeSettle.
    destruct (Batch.pendingAnalyses w !! k); [|discriminate].
    simpl. intros [= <-]. left. split; [|discriminate]. now destruct outcome.
  - intros [= <-]. left. split; [reflexivity | discriminate].
  - intros [= <-]. left. split; [reflexivity | discriminate].
Qed.

End BatchFacts.

(** ** The further properties applied *)

Lemma X1_history_not_blank_applied :
  Forall (fun q => trim q <> "") ["second"; "first"].
Proof.
  apply (@X1_history_not_blank Sample.host
           (Sample.after Sample.twoSubmissions)
           (reachable_after Sample.twoSubmissions _ eq_refl)).
Defined.

Lemma X2_requests_run_to_completion_applied :
  exists w',
    run (H := Sample.host) (Sample.after Sample.twoSubmissions)
      (settleAll [None; Some Sample.answer; None; None;
                  Some Sample.answer; None; Some Sample.answer; None])
    = Some w' /\
    fetches w' = [] /\ st_loading (ui w') = false /\
    analyzeShown (ui w') = true.
Proof.
  destruct (@X2_requests_run_to_completion Sample.host
              (Sample.after Sample.twoSubmissions)
              [None; Some Sample.answer; None; None;
               Some Sample.answer; None; Some Sample.answer; None]
              (reachable_after Sample.twoSubmissions _ eq_refl) eq_refl)
    as (w' & Hrun & Hnil & Hl & _ & Hshown & _).
  exists w'. repeat split; try assumption. apply Hshown. simpl. lia.
Defined.

Lemma X3_requests_match_result_set_applied :
  In ("/api/query-individual/claude", 2%nat) modelEndpoints /\
  forall r, st_results (ui (Sample.after Sample.twoSubmissions)) = Some r ->
            query r = "second".
Proof.
  destruct (@X3_requests_match_result_set Sample.host
              (Sample.after Sample.twoSubmissions)
              {| submission := 1; endpoint := "/api/query-individual/claude";
                 index := 2; body := "second" |}
              (reachable_after Sample.twoSubmissions _ eq_refl))
    as [Hendpoint Hbody].
  - simpl. tauto.
  - split; [exact Hendpoint|].
    intros r Hr. symmetry. exact (Hbody r eq_refl Hr).
Defined.

Lemma X4_location_settled_once_applied :
  st_location (ui (Sample.after (Scenario.located ++ Sample.oneSubmission)))
  = st_location (ui (Sample.after Scenario.located)) /\
  st_locationPermission
    (ui (Sample.after (Scenario.located ++ Sample.oneSubmission)))
  = "granted".
Proof.
  destruct (@X4_location_settled_once Sample.host
              (Sample.after Scenario.located)
              (Sample.after (Scenario.located ++ Sample.oneSubmission))
              Sample.oneSubmission
              (reachable_after Scenario.located _ eq_refl) eq_refl eq_refl)
    as (Hloc & Hperm & _).
  split; [exact Hloc | now rewrite Hperm].
Defined.

Lemma X5_no_permission_no_enrichment_applied :
  exists w',
    step (H := Sample.host)
      (Sample.after (Scenario.denied ++ [Typed "weather today"]))
      (Submitted Sample.now Sample.now Sample.now Sample.now) = Some w' /\
    query <$> st_results (ui w') = Some "weather today".
Proof.
  destruct (@X5_no_permission_no_enrichment Sample.host
              (Sample.after (Scenario.denied ++ [Typed "weather today"]))
              Sample.now Sample.now Sample.now Sample.now
              (reachable_after
                 (Scenario.denied ++ [Typed "weather today"]) _ eq_refl))
    as (w' & Hstep & Hq & _).
  - discriminate.
  - vm_compute. discriminate.
  - exists w'. split; assumption.
Defined.

Lemma X6_place_name_resolution_applied :
  enhanceQueryWithLocation (H := Sample.host)
    (st_location
       (requestLocation
          (GeoPosition Sample.lat Sample.lon (Some (Some Scenario.delft)))
          initialState))
    "weather tomorrow"
  = "weather tomorrow in Delft, Netherlands".
Proof.
  apply (@X6_place_name_resolution Sample.host initialState Sample.lat
           Sample.lon (Some (Some Scenario.delft)) "weather tomorrow" eq_refl).
Defined.

Lemma X8_analysis_outlives_submission_applied :
  exists w',
    uiRun (H := Sample.host) (Sample.after Scenario.analysingThenTyped)
      [Submitted Sample.now Sample.now Sample.now Sample.now;
       AnalyzeSettled 0 (Some (Some "all agree"))] = Some w' /\
    query <$> st_results (ui w') = Some "second" /\
    (st_results (ui w') ≫= analysis) = Some "all agree" /\
    analyzeShown (ui w') = false.
Proof.
  destruct (@X8_analysis_outlives_submission Sample.host
              (Sample.after Scenario.analysingThenTyped) 0
              {| areq_query := "first";
                 areq_responses :=
                   [loaded Sample.answer;
                    failed (default Sample.answer
                              (initialResponses Sample.now Sample.now
                                 Sample.now Sample.now !! 1%nat));
                    loaded Sample.answer; loaded Sample.answer] |}
              (Some "all agree")
              Sample.now Sample.now Sample.now Sample.now)
    as (w' & Hrun & Hres & _).
  - reflexivity.
  - reflexivity.
  - vm_compute. discriminate.
  - exists w'. split; [exact Hrun|]. unfold analyzeShown.
    rewrite Hres. repeat split.
Defined.

Lemma X9_results_never_cleared_applied :
  welcomeShown
    (ui (Sample.after (Sample.analysing ++ [AnalyzeSettled 0 None]))) = false.
Proof.
  assert (Hrun : run (H := Sample.host) (Sample.after Sample.oneSubmission)
                   [Settled 0 (Some Sample.answer); Settled 0 None;
                    Settled 0 (Some Sample.answer);
                    Settled 0 (Some Sample.answer); AnalyzeClicked;
                    AnalyzeSettled 0 None]
                 = Some (Sample.after
                           (Sample.analysing ++ [AnalyzeSettled 0 None])))
    by (vm_compute; reflexivity).
  assert (Hne : st_results (ui (Sample.after Sample.oneSubmission)) <> None)
    by (vm_compute; discriminate).
  apply (@X9_results_never_cleared Sample.host _ _ _ Hne Hrun).
Defined.

Lemma X10_no_stale_continuation_applied :
  exists r slot,
    st_results (ui (Scenario.afterUi Sample.oneSubmission)) = Some r /\
    "first" = query r /\
    responses r !! 3%nat = Some slot /\ isLoading slot = true.
Proof.
  apply (@X10_no_stale_continuation Sample.host
           (Scenario.afterUi Sample.oneSubmission) 3
           {| submission := 0; endpoint := "/api/query-individual/gemini";
              index := 3; body := "first" |}
           (uiReachable_after Sample.oneSubmission _ eq_refl) eq_refl).
Defined.

Lemma X11_progress_is_shown_exactly_applied :
  st_loading (ui (Scenario.afterUi Sample.oneSubmission)) = true.
Proof.
  apply (@X11_progress_is_shown_exactly Sample.host
           (Scenario.afterUi Sample.oneSubmission)
           (uiReachable_after Sample.oneSubmission _ eq_refl)).
  discriminate.
Defined.

Lemma X12_one_analysis_at_a_time_applied :
  st_analyzing (ui (Scenario.afterUi Scenario.analysingThenTyped)) = true.
Proof.
  assert (Hw : uiReachable (H := Sample.host)
                 (Scenario.afterUi Scenario.analysingThenTyped))
    by (apply (uiReachable_after Scenario.analysingThenTyped);
        vm_compute; reflexivity).
  apply (proj1 (proj2 (@X12_one_analysis_at_a_time Sample.host _ Hw))).
  discriminate.
Defined.

Lemma X13_batch_history_and_loading_applied :
  st_history (Batch.page (Batch.after Batch.sample)) = ["second"].
Proof.
  destruct (X13_batch_history_and_loading (Batch.after Batch.sample))
    as (_ & _ & Hh & _).
  - exists Batch.sample. reflexivity.
  - exact Hh.
Defined.

Lemma X14_batch_history_on_success_applied :
  Batch.page (Batch.after [Batch.Typed "first"; Batch.Submitted;
                           Batch.QuerySettled 0 None])
  = setLoading false
      (Batch.page (Batch.after [Batch.Typed "first"; Batch.Submitted])).
Proof.
  destruct (X14_batch_history_on_success
              (Batch.after [Batch.Typed "first"; Batch.Submitted])
              (Batch.after [Batch.Typed "first"; Batch.Submitted;
                            Batch.QuerySettled 0 None])
              (Batch.QuerySettled 0 None) eq_refl)
    as [[_ Hfail]|(k & q & data & [=] & _)].
  exact (Hfail 0%nat eq_refl).
Defined.

Lemma X15_at_most_four_in_flight_applied :
  (length (fetches (Scenario.afterUi Sample.oneSubmission)) <= 4)%nat.
Proof.
  apply (@X15_at_most_four_in_flight Sample.host
           (Scenario.afterUi Sample.oneSubmission)
           (uiReachable_after Sample.oneSubmission _ eq_refl)).
Defined.
